(** * modd: batching and reconciliation of filesystem events

    A shallow embedding of [modd.go] (package [modd]): the [Mod] change set
    and its operations, path normalisation, the [batch] loop with its
    resolution heuristics, and the loop body of [Watch].

    Conventions of the embedding.
    - A Go [string] is a [string] (a sequence of bytes); a [[]string] is a
      [list string], the nil slice and the empty slice both being [[]].
    - A Go [map[string]bool] is a [gmap string bool]; [m[k] = true] is
      [<[k:=true]> m] and [delete(m, k)] is [delete k m].
    - [for k := range m] visits the keys of [m] in an order Go leaves
      unspecified. A loop is a left fold of its body over a list of keys;
      the functions below take the order [map_to_list] gives, and lemmas
      [_keys_in_order] and [resolve_in_order] show that no other order
      changes a result.
    - A [*Mod] is a pointer into a store of [Mod] objects; dereferencing
      [nil] panics.
    - Functions of the Go standard library and of other files of the
      package ([filepath.Abs], [filepath.Rel], [filepath.Join],
      [filterFiles]) are section variables. *)

From Stdlib Require Import ZArith Lia Ascii.
From stdpp Require Import base gmap strings list sorting fin_maps.

Set Warnings "-clear-no-such-hyp".

(** ** Sorting

    Go compares strings byte by byte; that order is [String.le]. *)

(** [sort.Strings]: sorts a slice of strings in increasing order. *)
Definition sort_Strings (keys : list string) : list string :=
  merge_sort String.le keys.

(** ** The change set *)

(** [type Mod struct { Changed, Deleted, Added []string }] *)
Record Mod : Type := mkMod {
  Changed : list string;
  Deleted : list string;
  Added : list string
}.

#[global] Instance Mod_eq_dec : EqDecision Mod.
Proof. solve_decision. Defined.

(** [&Mod{}], all three slices nil. *)
Definition Mod_zero : Mod := mkMod [] [] [].

(** [for k := range m]: the keys of [m], in the order the loops below take. *)
Definition range {V} (m : gmap string V) : list string := (map_to_list m).*1.

(** [_, ok := m[k]]: whether [k] is a key of [m]. *)
Definition has {V} (m : gmap string V) (k : string) : bool :=
  bool_decide (is_Some (m !! k)).

(** The body of [for k := range m { keys[i] = k; i++ }]. *)
Definition keys_store (acc : list string * nat) (k : string) : list string * nat :=
  (<[acc.2 := k]> acc.1, S acc.2).

(** [_keys], its loop visiting the keys in the order [ks]: the keys of a
    map, sorted; nil for an empty map. *)
Definition _keys_in (ks : list string) (m : gmap string bool) : list string :=
  if decide (0 < size m) then
    let keys := replicate (size m) "" in
    let i := 0 in
    let '(keys, i) := foldl keys_store (keys, i) ks in
    sort_Strings keys
  else [].

Definition _keys (m : gmap string bool) : list string :=
  _keys_in (range m) m.

(** The body of [for _, p := range ps { all[p] = true }]. *)
Definition mark (all : gmap string bool) (p : string) : gmap string bool :=
  <[p := true]> all.

(** [Mod.All]: a single list of all changed files. *)
Definition All (md : Mod) : list string :=
  let all : gmap string bool := ∅ in
  let all := foldl mark all (Changed md) in
  let all := foldl mark all (Added md) in
  let all := foldl mark all (Deleted md) in
  _keys all.

(** [Mod.Empty]: checks if this mod set is empty. *)
Definition Empty (md : Mod) : bool :=
  if bool_decide (0 < length (Changed md)) ||
     bool_decide (0 < length (Deleted md)) ||
     bool_decide (0 < length (Added md))
  then false else true.

(** ** Path normalisation *)

(** Go's [error]; [None] is the nil error. *)
Definition error : Type := string.

Section Paths.

(** [filepath.Separator], [filepath.Abs], [filepath.Rel] and
    [filepath.Join] depend on the operating system and on the working
    directory of the process. *)
Variable Separator : Ascii.ascii.
Variable Abs : string → string * option error.
Variable Rel : string → string → string * option error.
Variable Join : list string → string.

Fixpoint replace_byte (old new : Ascii.ascii) (s : string) : string :=
  match s with
  | EmptyString => EmptyString
  | String c s' =>
      String (if Ascii.eqb c old then new else c) (replace_byte old new s')
  end.

(** [filepath.ToSlash]: every separator replaced by a slash. *)
Definition ToSlash (path : string) : string :=
  if Ascii.eqb Separator "/"%char then path
  else replace_byte Separator "/"%char path.

(** [strings.Index]: the index of the first instance of [substr] in [s],
    or -1. *)
Definition strings_Index (s substr : string) : Z :=
  match String.index 0 substr s with
  | Some off => Z.of_nat off
  | None => (-1)%Z
  end.

(** [s[i] == c]. The index is in range wherever [isUnder] evaluates it:
    [&&] and [||] reach it only when [parent] is a proper prefix of
    [child]. *)
Definition byte_at_is (s : string) (i : nat) (c : Ascii.ascii) : bool :=
  match String.get i s with
  | Some b => Ascii.eqb b c
  | None => false
  end.

(** [isUnder] takes two absolute paths, and returns true if child is
    under parent. *)
Definition isUnder (parent child : string) : bool :=
  let parent := ToSlash parent in
  let child := ToSlash child in
  let off := strings_Index child parent in
  if (off =? 0)%Z &&
     (Nat.eqb (String.length child) (String.length parent) ||
      byte_at_is child (String.length parent) "/"%char)
  then true
  else false.

(** [abspath] is under none of [bases], each made absolute by
    [filepath.Abs]. *)
Definition under_none (bases : list string) (abspath : string) : Prop :=
  Forall (λ base, isUnder (Abs base).1 abspath = false) bases.

(** [normPath]: notify events have absolute paths; they are normalised
    to be relative to the base path. *)
Fixpoint normPath (bases : list string) (abspath : string)
  : string * option error :=
  match bases with
  | [] => (abspath, None)
  | base :: bases' =>
      let '(absbase, err) := Abs base in
      if isUnder absbase abspath then
        match err with
        | Some e => ("", Some e)
        | None =>
            let '(relpath, err) := Rel absbase abspath in
            match err with
            | Some e => ("", Some e)
            | None => (Join [base; relpath], None)
            end
        end
      else normPath bases' abspath
  end.

(** The loop of [normPaths], [ret] being filled from index [i] on. *)
Fixpoint normPaths_from (bases : list string) (ret : list string) (i : nat)
    (abspaths : list string) : list string * option error :=
  match abspaths with
  | [] => (ret, None)
  | p :: abspaths' =>
      let '(norm, err) := normPath bases p in
      match err with
      | Some e => ([], Some e)
      | None => normPaths_from bases (<[i := norm]> ret) (S i) abspaths'
      end
  end.

Definition normPaths (bases : list string) (abspaths : list string)
  : list string * option error :=
  let ret := replicate (length abspaths) "" in
  normPaths_from bases ret 0 abspaths.

End Paths.

(** ** Existence checkers *)

(** [type existenceChecker interface { Check(p string) bool }] *)
Class existenceChecker (T : Type) : Type := Check : T → string → bool.

(** [statExistenceChecker] asks [os.Stat]; the answer of [os.Stat] (its
    error, [None] when the file is there) is a field of the model. *)
Record statExistenceChecker : Type := mkStat {
  os_Stat : string → option error
}.

#[global] Instance statExistenceChecker_Check :
  existenceChecker statExistenceChecker :=
  λ sc p, match os_Stat sc p with
          | None => true
          | Some _ => false
          end.

(** A checker given by its answers, as a test double would be. *)
#[global] Instance fun_Check : existenceChecker (string → bool) :=
  λ f p, f p.

(** ** Raw events *)

(** [notify.Event]: the four kinds [batch] tells apart, and any other. *)
Inductive notify_Event : Type :=
  | Create
  | Remove
  | Write
  | Rename
  | OtherEvent.

#[global] Instance notify_Event_eq_dec : EqDecision notify_Event.
Proof. solve_decision. Defined.

(** [notify.EventInfo], seen through [Event()] and [Path()]. *)
Record EventInfo : Type := mkEvent {
  Event : notify_Event;
  Path : string
}.

#[global] Instance EventInfo_eq_dec : EqDecision EventInfo.
Proof. solve_decision. Defined.

(** ** The batch loop *)

(** The four maps local to one call of [batch]. *)
Record accum : Type := mkAccum {
  added : gmap string bool;
  removed : gmap string bool;
  changed : gmap string bool;
  renamed : gmap string bool
}.

Definition accum_init : accum := mkAccum ∅ ∅ ∅ ∅.

(** [case evt := <-ch]: the switch on the kind of the event. The debug line
    written to [Logger] does not touch the maps and is left out. *)
Definition event_case (st : accum) (evt : EventInfo) : accum :=
  match Event evt with
  | Create =>
      mkAccum (<[Path evt := true]> (added st)) (removed st) (changed st) (renamed st)
  | Remove =>
      mkAccum (added st) (<[Path evt := true]> (removed st)) (changed st) (renamed st)
  | Write =>
      mkAccum (added st) (removed st) (<[Path evt := true]> (changed st)) (renamed st)
  | Rename =>
      mkAccum (added st) (removed st) (changed st) (<[Path evt := true]> (renamed st))
  | OtherEvent => st
  end.

(** One outcome of the [select] statement of [batch]. *)
Inductive select_case : Type :=
  | Recv (evt : EventInfo)
  | TimeAfter.

(** An event in the channel, with the instant it was sent at. *)
Record arrival : Type := mkArrival {
  sent_at : Z;
  sent : EventInfo
}.

(** The outcomes of a call of [batch] that receives the events [evs], in
    this order, before its timer fires. *)
Definition received (evs : list EventInfo) : list select_case :=
  (Recv <$> evs) ++ [TimeAfter].

Section Resolution.

Context {T : Type} `{!existenceChecker T}.
Variable exists_ : T.

(** Body of [for k := range renamed]. *)
Definition renamed_body (st : accum) (k : string) : accum :=
  if Check exists_ k then
    mkAccum (<[k := true]> (added st)) (removed st) (changed st) (renamed st)
  else
    mkAccum (added st) (<[k := true]> (removed st)) (changed st) (renamed st).

(** Body of [for k := range added]. *)
Definition added_body (st : accum) (k : string) : accum :=
  if Check exists_ k then
    mkAccum (added st) (delete k (removed st)) (delete k (changed st)) (renamed st)
  else
    mkAccum (delete k (added st)) (delete k (removed st))
            (delete k (changed st)) (renamed st).

(** Body of [for k := range removed]. *)
Definition removed_body (st : accum) (k : string) : accum :=
  if Check exists_ k then
    mkAccum (added st) (delete k (removed st)) (changed st) (renamed st)
  else
    mkAccum (delete k (added st)) (removed st) (delete k (changed st)) (renamed st).

(** The three loops, each over a given list of keys. Every body deletes
    from the map its loop ranges over the current key only, so the keys
    a loop visits are those the map holds when the loop starts. *)
Definition resolve_in (ks_renamed : accum → list string)
    (ks_added : accum → list string) (ks_removed : accum → list string)
    (st : accum) : accum :=
  let st := foldl renamed_body st (ks_renamed st) in
  let st := foldl added_body st (ks_added st) in
  let st := foldl removed_body st (ks_removed st) in
  st.

Definition resolve (st : accum) : accum :=
  resolve_in (λ st, range (renamed st)) (λ st, range (added st))
             (λ st, range (removed st)) st.

(** [case <-time.After(batchTime)]: the value [batch] returns. *)
Definition timeout_case (st : accum) : Mod :=
  let st := resolve st in
  {| Added := _keys (added st);
     Changed := _keys (changed st);
     Deleted := _keys (removed st) |}.

(** The [for] loop of [batch] run on the outcomes of its successive
    [select] statements; [None] when the outcomes end with the loop
    still waiting. *)
Fixpoint batch_from (st : accum) (tr : list select_case) : option Mod :=
  match tr with
  | [] => None
  | Recv evt :: tr' => batch_from (event_case st evt) tr'
  | TimeAfter :: _ => Some (timeout_case st)
  end.

Definition batch (tr : list select_case) : option Mod :=
  batch_from accum_init tr.

(** *** The loop on a clock

    Time is counted in nanoseconds, as [time.Duration] is. The channel
    holds events with the instants they were sent at, oldest first. A
    [select] entered at [now] starts a timer of its own,
    [time.After(batchTime)]. The receive is ready at the later of [now]
    and the instant the event was sent; the case that is ready first is
    taken, and Go chooses freely when both are ready at once ([tie]). The
    bodies of the cases take no time. *)
Definition timer_at (batchTime now : Z) : Z := (now + Z.max 0 batchTime)%Z.

Definition recv_at (now : Z) (a : arrival) : Z := Z.max now (sent_at a).

Definition recv_first (tie : bool) (batchTime now : Z) (a : arrival) : bool :=
  if (recv_at now a <? timer_at batchTime now)%Z then true
  else if (timer_at batchTime now <? recv_at now a)%Z then false
  else tie.

(** What a call of [batch] has done when it returns: the events it
    received with the instants of receipt, the instant it returns
    at, its result, and what it leaves in the channel. *)
Record timed_run : Type := mkRun {
  got : list (Z * EventInfo);
  returned_at : Z;
  result : Mod;
  left_in_ch : list arrival
}.

(** The loop of [batch] at the instant [now], [n] events received so
    far. *)
Fixpoint batch_timed (tie : nat → bool) (batchTime : Z) (n : nat) (now : Z)
    (st : accum) (chq : list arrival) : timed_run :=
  match chq with
  | [] => mkRun [] (timer_at batchTime now) (timeout_case st) []
  | a :: chq' =>
      if recv_first (tie n) batchTime now a then
        let r := batch_timed tie batchTime (S n) (recv_at now a)
                             (event_case st (sent a)) chq' in
        mkRun ((recv_at now a, sent a) :: got r) (returned_at r)
              (result r) (left_in_ch r)
      else mkRun [] (timer_at batchTime now) (timeout_case st) chq
  end.

(** The instant of the last receipt, [now] when there is none. *)
Definition last_receipt (now : Z) (receipts : list (Z * EventInfo)) : Z :=
  default now (last receipts.*1).

(** Events sent from [now] on, each less than [batchTime] after the
    one before it. *)
Fixpoint burst (batchTime now : Z) (chq : list arrival) : Prop :=
  match chq with
  | [] => True
  | a :: chq' =>
      (now ≤ sent_at a < now + batchTime)%Z ∧ burst batchTime (sent_at a) chq'
  end.

End Resolution.

(** ** Pointers to [Mod] and the goroutine of [Watch] *)

Definition loc : Type := positive.

(** A [*Mod]; [nil_ptr] is Go's [nil]. *)
Inductive ptr : Type :=
  | nil_ptr
  | addr (l : loc).

#[global] Instance ptr_eq_dec : EqDecision ptr.
Proof. solve_decision. Defined.

(** What the goroutine acts on: the [Mod] objects it has allocated, the
    lines given to [Logger.Shout], and the values sent on [ch]
    (oldest first). *)
Record world : Type := mkWorld {
  heap : gmap loc Mod;
  shouted : list string;
  ch : list Mod
}.

(** A computation ends with a value, or in the run-time panic of a nil
    dereference, which no code of the package recovers from. *)
Inductive exec (A : Type) : Type :=
  | Done (a : A) (w : world)
  | Panic (w : world).
Arguments Done {A} a w.
Arguments Panic {A} w.

Definition go (A : Type) : Type := world → exec A.

(** The world a computation ends in. *)
Definition world_of {A} (r : exec A) : world :=
  match r with
  | Done _ w => w
  | Panic w => w
  end.

#[global] Instance go_ret : MRet go := λ A a w, Done a w.

#[global] Instance go_bind : MBind go := λ A B f m w,
  match m w with
  | Done a w' => f a w'
  | Panic w' => Panic w'
  end.

(** [sends P c]: all that [c] does to the channel is to send values that
    satisfy [P]; this holds of a run that panics too. *)
Definition sends {A} (P : Mod → Prop) (c : go A) : Prop :=
  ∀ w, ∃ out, ch (world_of (c w)) = ch w ++ out ∧ Forall P out.

(** [*p], and [p.f] for a field [f]. *)
Definition load (p : ptr) : go Mod := λ w,
  match p with
  | nil_ptr => Panic w
  | addr l =>
      match heap w !! l with
      | Some m => Done m w
      | None => Panic w
      end
  end.

(** [&Mod{...}]: a new object. *)
Definition new (m : Mod) : go ptr := λ w,
  let l := fresh (dom (heap w)) in
  Done (addr l) (mkWorld (<[l := m]> (heap w)) (shouted w) (ch w)).

(** [Logger.Shout(format, err)] *)
Definition Shout (format : string) (err : error) : go unit := λ w,
  Done () (mkWorld (heap w) (shouted w ++ [format +:+ err]) (ch w)).

(** [ch <- m] *)
Definition send (m : Mod) : go unit := λ w,
  Done () (mkWorld (heap w) (shouted w) (ch w ++ [m])).

Section Session.

Variable Separator : Ascii.ascii.
Variable Abs : string → string * option error.
Variable Rel : string → string → string * option error.
Variable Join : list string → string.

(** [filterFiles], of another file of the package: the files that match
    none of the exclude patterns, or an error. *)
Variable filterFiles : list string → list string → list string * option error.

(** [Mod.Filter] applies a filter. *)
Definition Filter (md : ptr) (excludes : list string)
  : go (ptr * option error) :=
  m ← load md;
  let '(changed, err) := filterFiles (Changed m) excludes in
  match err with
  | Some e => mret (nil_ptr, Some e)
  | None =>
      m ← load md;
      let '(deleted, err) := filterFiles (Deleted m) excludes in
      match err with
      | Some e => mret (nil_ptr, Some e)
      | None =>
          m ← load md;
          let '(added, err) := filterFiles (Added m) excludes in
          match err with
          | Some e => mret (nil_ptr, Some e)
          | None =>
              p ← new {| Changed := changed; Deleted := deleted; Added := added |};
              mret (p, None)
          end
      end
  end.

(** [Mod.normPaths] *)
Definition Mod_normPaths (md : ptr) (bases : list string)
  : go (ptr * option error) :=
  m ← load md;
  let '(changed, err) := normPaths Separator Abs Rel Join bases (Changed m) in
  match err with
  | Some e => mret (nil_ptr, Some e)
  | None =>
      m ← load md;
      let '(deleted, err) := normPaths Separator Abs Rel Join bases (Deleted m) in
      match err with
      | Some e => mret (nil_ptr, Some e)
      | None =>
          m ← load md;
          let '(added, err) := normPaths Separator Abs Rel Join bases (Added m) in
          match err with
          | Some e => mret (nil_ptr, Some e)
          | None =>
              p ← new {| Changed := changed; Deleted := deleted; Added := added |};
              mret (p, None)
          end
      end
  end.

(** [if err != nil { Logger.Shout(format, err) }] *)
Definition Shout_if (format : string) (err : option error) : go unit :=
  match err with
  | Some e => Shout format e
  | None => mret ()
  end.

(** What the goroutine of [Watch] does with the result of [batch]. *)
Definition Watch_forward (paths excludes : list string) (ret : ptr) : go unit :=
  if decide (ret ≠ nil_ptr) then
    '(ret, err) ← Mod_normPaths ret paths;
    Shout_if "Error normalising paths: " err;;
    '(ret, err) ← Filter ret excludes;
    Shout_if "Error filtering paths: " err;;
    m ← load ret;
    if negb (Empty m) then
      m ← load ret;
      send m
    else mret ()
  else mret ().

(** One turn of the [for] loop of the goroutine: the state of the file
    system [os.Stat] sees when [batch] resolves, and the outcomes of the
    [select] statements of [batch]. *)
Record cycle : Type := mkCycle {
  stat : statExistenceChecker;
  outcomes : list select_case
}.

(** The [for] loop of the goroutine over its successive turns. It is left
    when a turn panics; it waits in [batch] when the outcomes of a turn end
    before the timer has fired, and no later turn starts. *)
Fixpoint Watch_loop (paths excludes : list string) (cycles : list cycle)
  : go unit :=
  match cycles with
  | [] => mret ()
  | c :: cycles' =>
      match batch (stat c) (outcomes c) with
      | None => mret ()
      | Some m =>
          ret ← new m;
          Watch_forward paths excludes ret;;
          Watch_loop paths excludes cycles'
      end
  end.

End Session.

(** ** The setup of [Watch] *)

Section Setup.

(** [os.Stat], seen through [IsDir()] of the [FileInfo] and the error;
    [path.Join]; and [notify.Watch(p, evtch, notify.All)], whose error
    may depend on the watchpoints set so far. *)
Variable os_Stat_IsDir : string → bool * option error.
Variable path_Join : list string → string.
Variable notify_Watch : list string → string → option error.





End Setup.

(** ** The consumer in [main] *)

(** [%v] of a [[]string]: the elements between brackets, a space between
    two of them. *)
Definition fmt_v (l : list string) : string :=
  "[" +:+ String.concat " " l +:+ "]".

(** The body of [for mod := range modchan]: what it writes to the
    standard output, one string for each [fmt.Printf]. *)
Definition main_print (md : Mod) : list string :=
  (if bool_decide (0 < length (Added md))
   then ["Added: " +:+ fmt_v (Added md) +:+ "
"] else []) ++
  (if bool_decide (0 < length (Changed md))
   then ["Changed: " +:+ fmt_v (Changed md) +:+ "
"] else []) ++
  (if bool_decide (0 < length (Deleted md))
   then ["Removed: " +:+ fmt_v (Deleted md) +:+ "
"] else []).

(** ** Orders on worlds *)

(** [w'] has every object of [w] as it was, and the log and the channel of
    [w] with, possibly, more at their ends. *)
Definition world_le (w w' : world) : Prop :=
  (∀ l m, heap w !! l = Some m → heap w' !! l = Some m) ∧
  shouted w `prefix_of` shouted w' ∧
  ch w `prefix_of` ch w'.

(** [grows c]: [c] only adds to the world, also when it panics. *)
Definition grows {A} (c : go A) : Prop :=
  ∀ w, world_le w (world_of (c w)).

(** ** Stand-ins for running the model

    Functions of the right types to put in the place of [filepath.Abs],
    [filepath.Rel], [filepath.Join] and [filterFiles] where the model is
    run on an example: bases are absolute already, a relative path is what
    follows the base and its slash, and the pattern ["["] is malformed. *)
Module Standin.

Definition Abs (path : string) : string * option error := (path, None).

Definition Rel (basepath targpath : string) : string * option error :=
  (String.substring (S (String.length basepath))
                    (String.length targpath - S (String.length basepath))
                    targpath, None).

Definition Join (elem : list string) : string := String.concat "/" elem.

Definition filterFiles (files excludes : list string)
  : list string * option error :=
  match files with
  | [] => ([], None)
  | _ :: _ =>
      if bool_decide ("[" ∈ excludes)
      then ([], Some "syntax error in pattern")
      else (files, None)
  end.

End Standin.

(** * Properties *)

(** ** Keys of a map *)

Section KeysFacts.

Implicit Types (m : gmap string bool) (ks : list string) (p : string).

Lemma elem_of_range {V} (m : gmap string V) p :
  p ∈ range m ↔ is_Some (m !! p).
Proof.
  unfold range. rewrite list_elem_of_fmap. split.
  - intros [[k v] [-> Hkv]]. apply elem_of_map_to_list in Hkv. by exists v.
  - intros [v Hv]. exists (p, v). split; [done|].
    by apply elem_of_map_to_list.
Qed.

Lemma NoDup_range {V} (m : gmap string V) : NoDup (range m).
Proof. apply NoDup_fst_map_to_list. Qed.

Lemma length_range {V} (m : gmap string V) : length (range m) = size m.
Proof. unfold range. by rewrite length_fmap, length_map_to_list. Qed.

(** Storing at the indices [length pre], [length pre + 1], ... overwrites
    the zero values one by one. *)
Lemma keys_store_fill ks pre (d : string) :
  foldl keys_store (pre ++ replicate (length ks) d, length pre) ks
  = (pre ++ ks, length pre + length ks).
Proof.
  revert pre. induction ks as [|k ks IH]; intros pre; simpl.
  - by rewrite app_nil_r, Nat.add_0_r.
  - unfold keys_store at 2. simpl.
    replace (length pre) with (length pre + 0) at 1 by lia.
    rewrite insert_app_r. simpl.
    specialize (IH (pre ++ [k])).
    rewrite length_app in IH. simpl in IH.
    rewrite <- !(assoc_L (++)) in IH. simpl in IH.
    replace (S (length pre)) with (length pre + 1) by lia.
    rewrite IH. f_equal. lia.
Qed.

Lemma _keys_in_sort ks m :
  length ks = size m → _keys_in ks m = sort_Strings ks.
Proof.
  intros Hlen. unfold _keys_in. rewrite <- Hlen.
  pose proof (keys_store_fill ks [] "") as Hfill. simpl in Hfill.
  rewrite Hfill. case_decide as Hsz; [done|].
  destruct ks; [done | simpl in Hsz; lia].
Qed.

Lemma _keys_sort m : _keys m = sort_Strings (range m).
Proof. apply _keys_in_sort, length_range. Qed.

Lemma elem_of__keys m p : p ∈ _keys m ↔ is_Some (m !! p).
Proof.
  rewrite _keys_sort. unfold sort_Strings.
  rewrite merge_sort_Permutation. apply elem_of_range.
Qed.

Lemma NoDup__keys m : NoDup (_keys m).
Proof.
  rewrite _keys_sort. unfold sort_Strings.
  rewrite merge_sort_Permutation. apply NoDup_range.
Qed.

Lemma Sorted__keys m : StronglySorted String.le (_keys m).
Proof.
  rewrite _keys_sort. unfold sort_Strings.
  apply StronglySorted_merge_sort; apply _.
Qed.

Lemma sort_Strings_Permutation ks1 ks2 :
  ks1 ≡ₚ ks2 → sort_Strings ks1 = sort_Strings ks2.
Proof.
  intros Hp. unfold sort_Strings.
  apply (Sorted_unique String.le).
  - apply Sorted_merge_sort, _.
  - apply Sorted_merge_sort, _.
  - by rewrite !merge_sort_Permutation.
Qed.

(** The order in which [range] yields the keys does not show in the
    result of [_keys]. *)
Lemma _keys_in_order ks m : ks ≡ₚ range m → _keys_in ks m = _keys m.
Proof.
  intros Hp. rewrite _keys_sort, _keys_in_sort.
  - by apply sort_Strings_Permutation.
  - by rewrite Hp, length_range.
Qed.

(** Two maps with the same keys have the same [_keys]. *)
Lemma _keys_ext m1 m2 :
  (∀ p, is_Some (m1 !! p) ↔ is_Some (m2 !! p)) → _keys m1 = _keys m2.
Proof.
  intros Hdom. rewrite !_keys_sort. apply sort_Strings_Permutation.
  apply NoDup_Permutation; [apply NoDup_range..|].
  intros p. by rewrite !elem_of_range.
Qed.

Lemma lookup_foldl_mark m ks p :
  foldl mark m ks !! p = if bool_decide (p ∈ ks) then Some true else m !! p.
Proof.
  revert m. induction ks as [|k ks IH]; intros m; simpl; [done|].
  rewrite IH. unfold mark.
  destruct (decide (p = k)) as [->|Hne].
  - rewrite lookup_insert_eq.
    rewrite (bool_decide_eq_true_2 (k ∈ k :: ks)) by set_solver.
    by case_bool_decide.
  - rewrite lookup_insert_ne by done.
    assert (p ∈ k :: ks ↔ p ∈ ks) as Hext
      by (rewrite elem_of_cons; naive_solver).
    by rewrite (bool_decide_ext _ _ Hext).
Qed.

End KeysFacts.

(** ** The resolution loops *)

(** Case analysis on the tests a loop lemma mentions. *)
Ltac loop_cases :=
  repeat case_bool_decide; simplify_eq/=;
  rewrite ?lookup_insert_eq, ?lookup_delete_eq;
  rewrite ?lookup_insert_ne, ?lookup_delete_ne by done;
  try done; try congruence;
  try (exfalso; rewrite elem_of_cons in *; naive_solver).

Section ResolutionFacts.

Context {T : Type} `{!existenceChecker T}.
Variable exists_ : T.

Implicit Types (st : accum) (ks : list string) (p k : string).

Lemma foldl_renamed_body st ks :
  let st' := foldl (renamed_body exists_) st ks in
  (∀ p, added st' !! p =
        if bool_decide (p ∈ ks) && Check exists_ p then Some true
        else added st !! p) ∧
  (∀ p, removed st' !! p =
        if bool_decide (p ∈ ks) && negb (Check exists_ p) then Some true
        else removed st !! p) ∧
  changed st' = changed st ∧ renamed st' = renamed st.
Proof.
  revert st. induction ks as [|k ks IH]; intros st; simpl; [done|].
  destruct (IH (renamed_body exists_ st k)) as (Ha & Hr & Hc & Hn).
  split_and!.
  - intros p. rewrite Ha. unfold renamed_body.
    destruct (Check exists_ k) eqn:Hk; destruct (Check exists_ p) eqn:Hp;
      destruct (decide (p = k)) as [->|Hne]; simpl; loop_cases.
  - intros p. rewrite Hr. unfold renamed_body.
    destruct (Check exists_ k) eqn:Hk; destruct (Check exists_ p) eqn:Hp;
      destruct (decide (p = k)) as [->|Hne]; simpl; loop_cases.
  - rewrite Hc. unfold renamed_body. by destruct (Check exists_ k).
  - rewrite Hn. unfold renamed_body. by destruct (Check exists_ k).
Qed.

Lemma foldl_added_body st ks :
  let st' := foldl (added_body exists_) st ks in
  (∀ p, added st' !! p =
        if bool_decide (p ∈ ks) && negb (Check exists_ p) then None
        else added st !! p) ∧
  (∀ p, removed st' !! p =
        if bool_decide (p ∈ ks) then None else removed st !! p) ∧
  (∀ p, changed st' !! p =
        if bool_decide (p ∈ ks) then None else changed st !! p) ∧
  renamed st' = renamed st.
Proof.
  revert st. induction ks as [|k ks IH]; intros st; simpl; [done|].
  destruct (IH (added_body exists_ st k)) as (Ha & Hr & Hc & Hn).
  split_and!.
  - intros p. rewrite Ha. unfold added_body.
    destruct (Check exists_ k) eqn:Hk; destruct (Check exists_ p) eqn:Hp;
      destruct (decide (p = k)) as [->|Hne]; simpl; loop_cases.
  - intros p. rewrite Hr. unfold added_body.
    destruct (Check exists_ k) eqn:Hk;
      destruct (decide (p = k)) as [->|Hne]; simpl; loop_cases.
  - intros p. rewrite Hc. unfold added_body.
    destruct (Check exists_ k) eqn:Hk;
      destruct (decide (p = k)) as [->|Hne]; simpl; loop_cases.
  - rewrite Hn. unfold added_body. by destruct (Check exists_ k).
Qed.

Lemma foldl_removed_body st ks :
  let st' := foldl (removed_body exists_) st ks in
  (∀ p, added st' !! p =
        if bool_decide (p ∈ ks) && negb (Check exists_ p) then None
        else added st !! p) ∧
  (∀ p, removed st' !! p =
        if bool_decide (p ∈ ks) && Check exists_ p then None
        else removed st !! p) ∧
  (∀ p, changed st' !! p =
        if bool_decide (p ∈ ks) && negb (Check exists_ p) then None
        else changed st !! p) ∧
  renamed st' = renamed st.
Proof.
  revert st. induction ks as [|k ks IH]; intros st; simpl; [done|].
  destruct (IH (removed_body exists_ st k)) as (Ha & Hr & Hc & Hn).
  split_and!.
  - intros p. rewrite Ha. unfold removed_body.
    destruct (Check exists_ k) eqn:Hk; destruct (Check exists_ p) eqn:Hp;
      destruct (decide (p = k)) as [->|Hne]; simpl; loop_cases.
  - intros p. rewrite Hr. unfold removed_body.
    destruct (Check exists_ k) eqn:Hk; destruct (Check exists_ p) eqn:Hp;
      destruct (decide (p = k)) as [->|Hne]; simpl; loop_cases.
  - intros p. rewrite Hc. unfold removed_body.
    destruct (Check exists_ k) eqn:Hk; destruct (Check exists_ p) eqn:Hp;
      destruct (decide (p = k)) as [->|Hne]; simpl; loop_cases.
  - rewrite Hn. unfold removed_body. by destruct (Check exists_ k).
Qed.

(** What the three loops leave in the maps, for every order in which the
    loops visit the keys. *)
Lemma resolve_in_lookup (ksn ksa ksr : accum → list string) st :
  (∀ st p, p ∈ ksn st ↔ is_Some (renamed st !! p)) →
  (∀ st p, p ∈ ksa st ↔ is_Some (added st !! p)) →
  (∀ st p, p ∈ ksr st ↔ is_Some (removed st !! p)) →
  let st' := resolve_in exists_ ksn ksa ksr st in
  (∀ p, added st' !! p =
        if Check exists_ p then
          if has (renamed st) p then Some true else added st !! p
        else None) ∧
  (∀ p, removed st' !! p =
        if Check exists_ p then None
        else if has (added st) p then None
        else if has (renamed st) p then Some true
        else removed st !! p) ∧
  (∀ p, changed st' !! p =
        if has (added st) p || has (renamed st) p ||
           (has (removed st) p && negb (Check exists_ p))
        then None else changed st !! p) ∧
  renamed st' = renamed st.
Proof.
  intros Hksn Hksa Hksr. unfold resolve_in.
  set (st1 := foldl (renamed_body exists_) st (ksn st)).
  destruct (foldl_renamed_body st (ksn st)) as (Ha1 & Hr1 & Hc1 & Hn1).
  fold st1 in Ha1, Hr1, Hc1, Hn1.
  set (st2 := foldl (added_body exists_) st1 (ksa st1)).
  destruct (foldl_added_body st1 (ksa st1)) as (Ha2 & Hr2 & Hc2 & Hn2).
  fold st2 in Ha2, Hr2, Hc2, Hn2.
  set (st3 := foldl (removed_body exists_) st2 (ksr st2)).
  destruct (foldl_removed_body st2 (ksr st2)) as (Ha3 & Hr3 & Hc3 & Hn3).
  fold st3 in Ha3, Hr3, Hc3, Hn3.
  simpl.
  assert (∀ p, bool_decide (p ∈ ksn st) = has (renamed st) p) as En
    by (intros p; apply bool_decide_ext, Hksn).
  assert (∀ p, bool_decide (p ∈ ksa st1) = has (added st1) p) as Ea
    by (intros p; apply bool_decide_ext, Hksa).
  assert (∀ p, bool_decide (p ∈ ksr st2) = has (removed st2) p) as Er
    by (intros p; apply bool_decide_ext, Hksr).
  split_and!; [intros p..|by rewrite Hn3, Hn2, Hn1];
    repeat first
      [ rewrite Ha3 | rewrite Hr3 | rewrite Hc3 | rewrite Er
      | rewrite Ha2 | rewrite Hr2 | rewrite Hc2 | rewrite Ea
      | rewrite Ha1 | rewrite Hr1 | rewrite Hc1 | rewrite En
      | progress unfold has ];
    destruct (Check exists_ p), (added st !! p), (removed st !! p),
      (renamed st !! p), (changed st !! p); done.
Qed.

Lemma resolve_lookup st :
  let st' := resolve exists_ st in
  (∀ p, added st' !! p =
        if Check exists_ p then
          if has (renamed st) p then Some true else added st !! p
        else None) ∧
  (∀ p, removed st' !! p =
        if Check exists_ p then None
        else if has (added st) p then None
        else if has (renamed st) p then Some true
        else removed st !! p) ∧
  (∀ p, changed st' !! p =
        if has (added st) p || has (renamed st) p ||
           (has (removed st) p && negb (Check exists_ p))
        then None else changed st !! p) ∧
  renamed st' = renamed st.
Proof. apply resolve_in_lookup; intros; apply elem_of_range. Qed.

Lemma accum_eq st1 st2 :
  added st1 = added st2 → removed st1 = removed st2 →
  changed st1 = changed st2 → renamed st1 = renamed st2 → st1 = st2.
Proof. destruct st1, st2; simpl; congruence. Qed.

(** Go leaves the order of [range] over a map unspecified: whatever
    the order of each of the three loops, the maps end up the same. *)
Lemma resolve_in_order (ksn ksa ksr : accum → list string) st :
  (∀ st, ksn st ≡ₚ range (renamed st)) →
  (∀ st, ksa st ≡ₚ range (added st)) →
  (∀ st, ksr st ≡ₚ range (removed st)) →
  resolve_in exists_ ksn ksa ksr st = resolve exists_ st.
Proof.
  intros Hn Ha Hr.
  destruct (resolve_lookup st) as (Ea & Er & Ec & En).
  destruct (resolve_in_lookup ksn ksa ksr st) as (Ea' & Er' & Ec' & En').
  - intros st' p. by rewrite Hn, elem_of_range.
  - intros st' p. by rewrite Ha, elem_of_range.
  - intros st' p. by rewrite Hr, elem_of_range.
  - apply accum_eq; [apply map_eq; intros p..|].
    + by rewrite Ea, Ea'.
    + by rewrite Er, Er'.
    + by rewrite Ec, Ec'.
    + by rewrite En, En'.
Qed.

(** The three sequences of the result, by membership. *)
Lemma elem_of_Added st p :
  p ∈ Added (timeout_case exists_ st) ↔
  Check exists_ p = true ∧ (has (added st) p = true ∨ has (renamed st) p = true).
Proof.
  unfold timeout_case. simpl. rewrite elem_of__keys.
  destruct (resolve_lookup st) as (-> & _).
  unfold has, is_Some.
  destruct (Check exists_ p), (added st !! p), (renamed st !! p);
    simpl; naive_solver.
Qed.

Lemma elem_of_Deleted st p :
  p ∈ Deleted (timeout_case exists_ st) ↔
  Check exists_ p = false ∧ has (added st) p = false ∧
  (has (removed st) p = true ∨ has (renamed st) p = true).
Proof.
  unfold timeout_case. simpl. rewrite elem_of__keys.
  destruct (resolve_lookup st) as (_ & -> & _).
  unfold has, is_Some.
  destruct (Check exists_ p), (added st !! p), (removed st !! p),
    (renamed st !! p); simpl; naive_solver.
Qed.

Lemma elem_of_Changed st p :
  p ∈ Changed (timeout_case exists_ st) ↔
  has (changed st) p = true ∧ has (added st) p = false ∧
  has (renamed st) p = false ∧
  (has (removed st) p = false ∨ Check exists_ p = true).
Proof.
  unfold timeout_case. simpl. rewrite elem_of__keys.
  destruct (resolve_lookup st) as (_ & _ & -> & _).
  unfold has, is_Some.
  destruct (Check exists_ p), (added st !! p), (removed st !! p),
    (renamed st !! p), (changed st !! p); simpl; naive_solver.
Qed.

End ResolutionFacts.

(** ** Accumulation *)

Section AccumulationFacts.

Implicit Types (st : accum) (evs : list EventInfo) (p : string).

(** What the receive case has put in the maps after the events [evs]. *)
Lemma foldl_event_case st evs :
  let st' := foldl event_case st evs in
  (∀ p, added st' !! p =
        if bool_decide (mkEvent Create p ∈ evs) then Some true
        else added st !! p) ∧
  (∀ p, removed st' !! p =
        if bool_decide (mkEvent Remove p ∈ evs) then Some true
        else removed st !! p) ∧
  (∀ p, changed st' !! p =
        if bool_decide (mkEvent Write p ∈ evs) then Some true
        else changed st !! p) ∧
  (∀ p, renamed st' !! p =
        if bool_decide (mkEvent Rename p ∈ evs) then Some true
        else renamed st !! p).
Proof.
  revert st. induction evs as [|[kind q] evs IH]; intros st; simpl; [done|].
  destruct (IH (event_case st (mkEvent kind q))) as (Ha & Hr & Hc & Hn).
  split_and!; intros p; rewrite ?Ha, ?Hr, ?Hc, ?Hn;
    unfold event_case; simpl;
    destruct kind; simpl; destruct (decide (p = q)) as [->|Hne]; loop_cases.
Qed.

Lemma has_accumulated evs p :
  let st := foldl event_case accum_init evs in
  has (added st) p = bool_decide (mkEvent Create p ∈ evs) ∧
  has (removed st) p = bool_decide (mkEvent Remove p ∈ evs) ∧
  has (changed st) p = bool_decide (mkEvent Write p ∈ evs) ∧
  has (renamed st) p = bool_decide (mkEvent Rename p ∈ evs).
Proof.
  destruct (foldl_event_case accum_init evs) as (Ha & Hr & Hc & Hn).
  simpl. unfold has. rewrite Ha, Hr, Hc, Hn. simpl.
  rewrite !lookup_empty.
  split_and!;
    match goal with
    | |- context [bool_decide (?x ∈ evs)] => by destruct (bool_decide (x ∈ evs))
    end.
Qed.

End AccumulationFacts.

(** ** The loop of [batch] *)

Section BatchFacts.

Context {T : Type} `{!existenceChecker T}.
Variable exists_ : T.

Implicit Types (st : accum) (evs : list EventInfo) (tr : list select_case).

(** The loop goes on for as long as events are received... *)
Lemma batch_from_Recv st evs :
  batch_from exists_ st (Recv <$> evs) = None.
Proof. revert st. induction evs as [|evt evs IH]; intros st; simpl; auto. Qed.

(** ...and returns when the timer fires. *)
Lemma batch_from_TimeAfter st evs tr :
  batch_from exists_ st ((Recv <$> evs) ++ TimeAfter :: tr)
  = Some (timeout_case exists_ (foldl event_case st evs)).
Proof. revert st. induction evs as [|evt evs IH]; intros st; simpl; auto. Qed.

Lemma batch_received evs :
  batch exists_ (received evs)
  = Some (timeout_case exists_ (foldl event_case accum_init evs)).
Proof. apply batch_from_TimeAfter. Qed.

(** A result is always that of the events received before the first
    timer. *)
Lemma batch_from_Some st tr md :
  batch_from exists_ st tr = Some md →
  ∃ evs tr', tr = (Recv <$> evs) ++ TimeAfter :: tr' ∧
             md = timeout_case exists_ (foldl event_case st evs).
Proof.
  revert st. induction tr as [|[evt|] tr IH]; intros st; simpl; [done|..].
  - intros (evs & tr' & -> & ->)%IH. by exists (evt :: evs), tr'.
  - intros [= <-]. by exists [], tr.
Qed.

(** The three sequences of any result of the resolution are pairwise
    disjoint. *)
Lemma timeout_case_disjoint st :
  let md := timeout_case exists_ st in
  Added md ## Changed md ∧ Added md ## Deleted md ∧ Changed md ## Deleted md.
Proof.
  cbv zeta. split_and!; intros p.
  - rewrite elem_of_Added, elem_of_Changed.
    intros (_ & [Ha|Hn]) (_ & Ha' & Hn' & _); congruence.
  - rewrite elem_of_Added, elem_of_Deleted.
    intros (He & _) (He' & _); congruence.
  - rewrite elem_of_Changed, elem_of_Deleted.
    intros (_ & _ & Hn & [Hr|He]) (He' & _ & [Hr'|Hn']); congruence.
Qed.

End BatchFacts.

(** ** The loop of [batch] on a clock *)

Section TimedFacts.

Context {T : Type} `{!existenceChecker T}.
Variable exists_ : T.
Variable tie : nat → bool.
Variable batchTime : Z.

Implicit Types (st : accum) (chq : list arrival) (now : Z) (n : nat).

Lemma last_receipt_cons now t evt receipts :
  last_receipt now ((t, evt) :: receipts) = last_receipt t receipts.
Proof.
  unfold last_receipt. rewrite fmap_cons, last_cons. simpl.
  by destruct (last receipts.*1).
Qed.

(** The events received are the oldest in the channel; the others stay
    there. *)
Lemma batch_timed_split n now st chq :
  let r := batch_timed exists_ tie batchTime n now st chq in
  left_in_ch r = drop (length (got r)) chq ∧
  (got r).*2 = sent <$> take (length (got r)) chq.
Proof.
  revert n now st. induction chq as [|a chq IH]; intros n now st; simpl;
    [done|].
  destruct (recv_first _ _ _ _); [|done].
  destruct (IH (S n) (recv_at now a) (event_case st (sent a))) as [E1 E2].
  cbn [got left_in_ch length drop take]. rewrite !fmap_cons.
  split; [exact E1 | by f_equal].
Qed.

(** The result is that of the loop of [batch] on the events received,
    followed by the timer. *)
Lemma batch_timed_result n now st chq :
  let r := batch_timed exists_ tie batchTime n now st chq in
  batch_from exists_ st (received (got r).*2) = Some (result r).
Proof.
  revert n now st. induction chq as [|a chq IH]; intros n now st; simpl;
    [done|].
  destruct (recv_first _ _ _ _); simpl; [|done]. apply IH.
Qed.

(** The timer that fires is the one started at the last receipt. *)
Lemma batch_timed_returned_at n now st chq :
  let r := batch_timed exists_ tie batchTime n now st chq in
  returned_at r = timer_at batchTime (last_receipt now (got r)).
Proof.
  revert n now st. induction chq as [|a chq IH]; intros n now st; simpl;
    [done|].
  destruct (recv_first _ _ _ _); simpl; [|done].
  rewrite last_receipt_cons. apply IH.
Qed.

(** No event is received later than a full period after the one before
    it, nor before it was sent. *)
Lemma batch_timed_receipts n now st chq :
  let r := batch_timed exists_ tie batchTime n now st chq in
  ∀ i t evt a,
    got r !! i = Some (t, evt) → chq !! i = Some a →
    (sent_at a ≤ t ∧
     last_receipt now (take i (got r)) ≤ t ≤
       timer_at batchTime (last_receipt now (take i (got r))))%Z.
Proof.
  revert n now st. induction chq as [|a chq IH]; intros n now st; simpl;
    [done|].
  destruct (recv_first _ _ _ _) eqn:Hfirst; simpl; [|done].
  intros [|i] t evt a' Hgot Hch; simpl in *.
  - simplify_eq. unfold last_receipt. simpl.
    unfold recv_first in Hfirst. unfold recv_at in *. repeat case_match; lia.
  - rewrite last_receipt_cons. by eapply IH.
Qed.

(** When the call returns, a full period has gone by since the last
    receipt, or since the call when nothing was received, and the channel
    holds no event sent before that. *)
Lemma batch_timed_quiet n now st chq :
  (0 < batchTime)%Z →
  let r := batch_timed exists_ tie batchTime n now st chq in
  returned_at r = (last_receipt now (got r) + batchTime)%Z ∧
  ∀ a, head (left_in_ch r) = Some a → (returned_at r ≤ sent_at a)%Z.
Proof.
  intros Hpos. cbv zeta. split.
  - rewrite batch_timed_returned_at. unfold timer_at. lia.
  - revert n now st. induction chq as [|a chq IH]; intros n now st; simpl;
      [done|].
    destruct (recv_first _ _ _ _) eqn:Hfirst; simpl; [apply IH|].
    intros a' [= <-]. unfold recv_first, recv_at, timer_at in *.
    repeat case_match; lia.
Qed.

(** A burst is received whole, however long it lasts. *)
Lemma batch_timed_burst n now st chq :
  burst batchTime now chq →
  let r := batch_timed exists_ tie batchTime n now st chq in
  got r = (λ a, (sent_at a, sent a)) <$> chq ∧ left_in_ch r = [].
Proof.
  revert n now st. induction chq as [|a chq IH]; intros n now st; simpl;
    [done|].
  intros [Hgap Hburst].
  assert (recv_at now a = sent_at a) as Hat by (unfold recv_at; lia).
  assert (recv_first (tie n) batchTime now a = true) as ->.
  { unfold recv_first, timer_at. rewrite Hat. repeat case_match; lia. }
  simpl. rewrite Hat.
  destruct (IH (S n) (sent_at a) (event_case st (sent a)) Hburst) as [-> ->].
  done.
Qed.

End TimedFacts.

(** ** Effects of the goroutine *)

Section SendsFacts.

Context {A B : Type} (P : Mod → Prop).

Lemma sends_ret (a : A) : sends P (mret a).
Proof. intros w. exists []. by rewrite app_nil_r. Qed.

Lemma sends_bind (c : go A) (f : A → go B) :
  sends P c → (∀ a, sends P (f a)) → sends P (c ≫= f).
Proof.
  intros Hc Hf w. destruct (Hc w) as (out1 & E1 & HP1).
  unfold mbind, go_bind. destruct (c w) as [a w1|w1]; simpl in *.
  - destruct (Hf a w1) as (out2 & E2 & HP2).
    exists (out1 ++ out2). rewrite E2, E1, (assoc_L (++)).
    split; [done|]. by apply Forall_app.
  - by exists out1.
Qed.

Lemma sends_load (p : ptr) : sends P (load p).
Proof.
  intros w. exists []. rewrite app_nil_r. unfold load.
  destruct p as [|l]; [done|]. by destruct (heap w !! l).
Qed.

Lemma sends_new (m : Mod) : sends P (new m).
Proof. intros w. exists []. by rewrite app_nil_r. Qed.

Lemma sends_Shout (format : string) (err : error) : sends P (Shout format err).
Proof. intros w. exists []. by rewrite app_nil_r. Qed.

End SendsFacts.

Section SessionFacts.

Variable Separator : Ascii.ascii.
Variable Abs : string → string * option error.
Variable Rel : string → string → string * option error.
Variable Join : list string → string.
Variable filterFiles : list string → list string → list string * option error.

Implicit Types (w : world) (md ret : ptr) (m : Mod).

Lemma sends_Filter P md excludes : sends P (Filter filterFiles md excludes).
Proof.
  unfold Filter.
  repeat first
    [ apply sends_bind; [apply sends_load || apply sends_new | intros ?]
    | apply sends_ret
    | match goal with
      | |- context [filterFiles ?fs ?ex] => destruct (filterFiles fs ex) as [? [?|]]
      end ].
Qed.

Lemma sends_Mod_normPaths P md bases :
  sends P (Mod_normPaths Separator Abs Rel Join md bases).
Proof.
  unfold Mod_normPaths.
  repeat first
    [ apply sends_bind; [apply sends_load || apply sends_new | intros ?]
    | apply sends_ret
    | match goal with
      | |- context [normPaths ?s ?a ?r ?j ?bs ?ps] =>
          destruct (normPaths s a r j bs ps) as [? [?|]]
      end ].
Qed.

Lemma sends_Shout_if P format err : sends P (Shout_if format err).
Proof. destruct err; [apply sends_Shout | apply (sends_ret (A:=unit))]. Qed.

(** [if !ret.Empty() { ch <- *ret }] sends a [Mod] that is not empty,
    or nothing. *)
Lemma sends_if_not_Empty ret :
  sends (λ m, Empty m = false)
    (m ← load ret; if negb (Empty m) then m ← load ret; send m else mret ()).
Proof.
  intros w. unfold mbind, go_bind, load.
  destruct ret as [|l]; simpl; [exists []; by rewrite app_nil_r|].
  destruct (heap w !! l) as [m|] eqn:Hl; simpl;
    [|exists []; by rewrite app_nil_r].
  destruct (Empty m) eqn:HE; simpl; [exists []; by rewrite app_nil_r|].
  rewrite Hl. simpl. exists [m]. split; [done|]. by constructor.
Qed.

Lemma sends_Watch_forward paths excludes ret :
  sends (λ m, Empty m = false)
    (Watch_forward Separator Abs Rel Join filterFiles paths excludes ret).
Proof.
  unfold Watch_forward. case_decide; [|apply (sends_ret (A:=unit))].
  apply sends_bind; [apply sends_Mod_normPaths|intros [ret1 err1]].
  apply sends_bind; [apply sends_Shout_if|intros _].
  apply sends_bind; [apply sends_Filter|intros [ret2 err2]].
  apply sends_bind; [apply sends_Shout_if|intros _].
  apply sends_if_not_Empty.
Qed.

Lemma sends_Watch_loop paths excludes cycles :
  sends (λ m, Empty m = false)
    (Watch_loop Separator Abs Rel Join filterFiles paths excludes cycles).
Proof.
  induction cycles as [|c cycles IH]; simpl; [apply (sends_ret (A:=unit))|].
  destruct (batch _ _); [|apply (sends_ret (A:=unit))].
  apply sends_bind; [apply sends_new|intros ret].
  apply sends_bind; [apply sends_Watch_forward|intros _]. apply IH.
Qed.

(** A method that returns an error returns the nil pointer with it, and
    has changed nothing. *)
Lemma Mod_normPaths_error md bases w r e w1 :
  Mod_normPaths Separator Abs Rel Join md bases w = Done (r, Some e) w1 →
  r = nil_ptr ∧ w1 = w.
Proof.
  unfold Mod_normPaths, mbind, go_bind, load.
  destruct md as [|l]; [done|].
  destruct (heap w !! l) as [m|] eqn:Hl; [|done]. simpl.
  repeat (match goal with
          | |- context [normPaths ?s ?a ?r ?j ?bs ?ps] =>
              destruct (normPaths s a r j bs ps) as [? [?|]]
          end; simpl; rewrite ?Hl; simpl; try (by intros [= <- <-])).
Qed.

Lemma Filter_error md excludes w r e w1 :
  Filter filterFiles md excludes w = Done (r, Some e) w1 →
  r = nil_ptr ∧ w1 = w.
Proof.
  unfold Filter, mbind, go_bind, load.
  destruct md as [|l]; [done|].
  destruct (heap w !! l) as [m|] eqn:Hl; [|done]. simpl.
  repeat (match goal with
          | |- context [filterFiles ?fs ?ex] =>
              destruct (filterFiles fs ex) as [? [?|]]
          end; simpl; rewrite ?Hl; simpl; try (by intros [= <- <-])).
Qed.

(** After an error of [normPaths] the goroutine shouts, and calls
    [Filter] on the nil pointer it was given back. *)
Lemma Watch_forward_normPaths_error paths excludes ret w r e w1 :
  ret ≠ nil_ptr →
  Mod_normPaths Separator Abs Rel Join ret paths w = Done (r, Some e) w1 →
  Watch_forward Separator Abs Rel Join filterFiles paths excludes ret w
  = Panic (mkWorld (heap w)
                   (shouted w ++ ["Error normalising paths: " +:+ e])
                   (ch w)).
Proof.
  intros Hret Hnorm.
  destruct (Mod_normPaths_error _ _ _ _ _ _ Hnorm) as [-> ->].
  unfold Watch_forward. rewrite decide_True by done.
  unfold mbind at 1. unfold go_bind at 1. by rewrite Hnorm.
Qed.

(** After an error of [Filter] the goroutine shouts, and calls [Empty]
    on the nil pointer it was given back. *)
Lemma Watch_forward_Filter_error paths excludes ret w r1 w1 r2 e w2 :
  ret ≠ nil_ptr →
  Mod_normPaths Separator Abs Rel Join ret paths w = Done (r1, None) w1 →
  Filter filterFiles r1 excludes w1 = Done (r2, Some e) w2 →
  Watch_forward Separator Abs Rel Join filterFiles paths excludes ret w
  = Panic (mkWorld (heap w1)
                   (shouted w1 ++ ["Error filtering paths: " +:+ e])
                   (ch w1)).
Proof.
  intros Hret Hnorm Hfilter.
  destruct (Filter_error _ _ _ _ _ _ Hfilter) as [-> ->].
  unfold Watch_forward. rewrite decide_True by done.
  unfold mbind at 1. unfold go_bind at 1. rewrite Hnorm. simpl.
  unfold mbind at 1. unfold go_bind at 1. simpl.
  unfold mbind at 1. unfold go_bind at 1. by rewrite Hfilter.
Qed.

(** [Mod.normPaths] writes neither to the log nor to the channel. *)
Lemma Mod_normPaths_quiet md bases w :
  let r := Mod_normPaths Separator Abs Rel Join md bases w in
  shouted (world_of r) = shouted w ∧ ch (world_of r) = ch w.
Proof.
  unfold Mod_normPaths, mbind, go_bind, load.
  destruct md as [|l]; [done|].
  destruct (heap w !! l) as [m|] eqn:Hl; [|done]. simpl.
  repeat (match goal with
          | |- context [normPaths ?s ?a ?r ?j ?bs ?ps] =>
              destruct (normPaths s a r j bs ps) as [? [?|]]
          end; simpl; rewrite ?Hl; simpl; try done).
Qed.

End SessionFacts.

(** ** Paths outside the bases *)

Section PathsFacts.

Variable Separator : Ascii.ascii.
Variable Abs : string → string * option error.
Variable Rel : string → string → string * option error.
Variable Join : list string → string.

Lemma normPath_under_none bases abspath :
  under_none Separator Abs bases abspath →
  normPath Separator Abs Rel Join bases abspath = (abspath, None).
Proof.
  induction 1 as [|base bases Hbase _ IH]; simpl; [done|].
  destruct (Abs base) as [absbase err]. simpl in Hbase. by rewrite Hbase.
Qed.

Lemma normPaths_from_under_none bases abspaths pre (d : string) :
  Forall (under_none Separator Abs bases) abspaths →
  normPaths_from Separator Abs Rel Join bases
    (pre ++ replicate (length abspaths) d) (length pre) abspaths
  = (pre ++ abspaths, None).
Proof.
  intros Hall. revert pre.
  induction Hall as [|p abspaths Hp _ IH]; intros pre; simpl.
  - by rewrite app_nil_r.
  - rewrite (normPath_under_none _ _ Hp).
    replace (length pre) with (length pre + 0) at 1 by lia.
    rewrite insert_app_r. simpl.
    specialize (IH (pre ++ [p])).
    rewrite length_app in IH. simpl in IH.
    rewrite <- !(assoc_L (++)) in IH. simpl in IH.
    replace (S (length pre)) with (length pre + 1) by lia.
    exact IH.
Qed.

Lemma normPaths_under_none bases abspaths :
  Forall (under_none Separator Abs bases) abspaths →
  normPaths Separator Abs Rel Join bases abspaths = (abspaths, None).
Proof.
  intros Hall. unfold normPaths.
  apply (normPaths_from_under_none bases abspaths [] "" Hall).
Qed.

(** When [filepath.Abs] fails its first result is the empty string, which
    [isUnder] takes for a parent of every path that starts with a slash: the
    error is returned for such a path, whatever the bases that follow. *)
Lemma isUnder_empty_parent rest :
  isUnder Separator "" (String "/" rest) = true.
Proof.
  unfold isUnder, ToSlash, strings_Index, byte_at_is.
  destruct (Ascii.eqb Separator "/"); cbn [replace_byte]; [done|].
  by destruct (Ascii.eqb "/" Separator).
Qed.

Lemma normPath_Abs_error base bases rest e :
  Abs base = ("", Some e) →
  normPath Separator Abs Rel Join (base :: bases) (String "/" rest)
  = ("", Some e).
Proof. intros HAbs. simpl. by rewrite HAbs, isUnder_empty_parent. Qed.

End PathsFacts.

Example isUnder_child : isUnder "/" "/repo" "/repo/a.txt" = true.
Proof. reflexivity. Qed.

Example isUnder_itself : isUnder "/" "/repo" "/repo" = true.
Proof. reflexivity. Qed.

Example isUnder_longer_name : isUnder "/" "/repo" "/repository/a.txt" = false.
Proof. reflexivity. Qed.

Example isUnder_elsewhere : isUnder "/" "/repo" "/srv/repo/a.txt" = false.
Proof. reflexivity. Qed.

Example normPath_under_base :
  normPath "/" Standin.Abs Standin.Rel Standin.Join ["/srv"; "/repo"] "/repo/a.txt"
  = ("/repo/a.txt", None).
Proof. reflexivity. Qed.

(** ** Objects and pointers *)

Section StoreFacts.

Implicit Types (w : world) (l : loc) (m : Mod).

Lemma fresh_loc_None w : heap w !! fresh (dom (heap w)) = None.
Proof. apply not_elem_of_dom, is_fresh. Qed.

Lemma new_Done m w :
  new m w = Done (addr (fresh (dom (heap w))))
                 (mkWorld (<[fresh (dom (heap w)) := m]> (heap w))
                          (shouted w) (ch w)).
Proof. done. Qed.

End StoreFacts.

(** * The stated properties *)

(** ** [Mod.All] *)

(** C8. For every [Mod], [All] is sorted and free of duplicates, holds
    exactly the paths of [Added], [Changed] and [Deleted], and is the same
    list for any other [Mod] with the same paths, in whatever order and
    however often they occur in the three sequences. *)
Theorem All_sorted_union (md : Mod) :
  StronglySorted String.le (All md) ∧
  NoDup (All md) ∧
  (∀ p, p ∈ All md ↔ p ∈ Added md ∨ p ∈ Changed md ∨ p ∈ Deleted md) ∧
  (∀ md', (∀ p, (p ∈ Added md' ∨ p ∈ Changed md' ∨ p ∈ Deleted md') ↔
                (p ∈ Added md ∨ p ∈ Changed md ∨ p ∈ Deleted md)) →
          All md' = All md).
Proof.
  assert (∀ md p, is_Some (foldl mark (foldl mark (foldl mark ∅ (Changed md))
                                     (Added md)) (Deleted md) !! p)
                  ↔ p ∈ Added md ∨ p ∈ Changed md ∨ p ∈ Deleted md) as Hdom.
  { intros m p. rewrite !lookup_foldl_mark, lookup_empty.
    repeat case_bool_decide; split; try naive_solver;
      intros _; by eexists. }
  unfold All. split_and!.
  - apply Sorted__keys.
  - apply NoDup__keys.
  - intros p. by rewrite elem_of__keys, Hdom.
  - intros md' Hsame. apply _keys_ext. intros p. by rewrite !Hdom.
Qed.

Lemma All_sorted_union_witness :
  All {| Changed := ["b"; "a"; "b"]; Deleted := ["c"; "a"]; Added := [] |}
  = All {| Changed := ["a"]; Deleted := ["b"]; Added := ["c"] |}.
Proof.
  apply (All_sorted_union {| Changed := ["a"]; Deleted := ["b"]; Added := ["c"] |}).
  intros p. simpl. rewrite !elem_of_cons, !elem_of_nil. tauto.
Defined.

(** ** The resolution heuristics *)

(** C1. For every sequence of events received in a cycle and every
    existence checker, [batch] returns a [Mod] whose [Added], [Changed] and
    [Deleted] are pairwise disjoint. *)
Theorem batch_disjoint {T : Type} `{!existenceChecker T} (exists_ : T)
    (evs : list EventInfo) :
  ∃ md, batch exists_ (received evs) = Some md ∧
        Added md ## Changed md ∧ Added md ## Deleted md ∧
        Changed md ## Deleted md.
Proof.
  eexists. split; [apply batch_received|]. apply timeout_case_disjoint.
Qed.

(** C3. A path reported by [Rename] events only is in [Added] and nowhere
    else when the checker finds it, and in [Deleted] and nowhere else when
    the checker does not. *)
Theorem batch_rename_only {T : Type} `{!existenceChecker T} (exists_ : T)
    (evs : list EventInfo) (p : string) (md : Mod) :
  batch exists_ (received evs) = Some md →
  mkEvent Rename p ∈ evs →
  (∀ evt, evt ∈ evs → Path evt = p → Event evt = Rename) →
  if Check exists_ p
  then p ∈ Added md ∧ (p ∉ Changed md) ∧ (p ∉ Deleted md)
  else p ∈ Deleted md ∧ (p ∉ Added md) ∧ (p ∉ Changed md).
Proof.
  rewrite batch_received. intros [= <-] Hren Honly.
  destruct (has_accumulated evs p) as (Ha & Hr & Hc & Hn). cbv zeta in *.
  rewrite bool_decide_eq_true_2 in Hn by done.
  rewrite bool_decide_eq_false_2 in Ha, Hr, Hc
    by (intros Hin; by specialize (Honly _ Hin eq_refl)).
  destruct (Check exists_ p) eqn:Hex;
    rewrite elem_of_Added, elem_of_Changed, elem_of_Deleted, Ha, Hr, Hc, Hn, Hex;
    naive_solver.
Qed.

Lemma batch_rename_only_witness :
  batch (λ p : string, bool_decide (p = "/repo/b"))
        (received [mkEvent Rename "/repo/a"; mkEvent Rename "/repo/b"])
  = Some {| Changed := []; Deleted := ["/repo/a"]; Added := ["/repo/b"] |} ∧
  "/repo/b" ∈ ["/repo/b"] ∧ ("/repo/b" ∉ ([] : list string)) ∧ ("/repo/b" ∉ ["/repo/a"]).
Proof.
  split; [vm_compute; reflexivity|].
  refine (batch_rename_only (λ p : string, bool_decide (p = "/repo/b"))
            [mkEvent Rename "/repo/a"; mkEvent Rename "/repo/b"] "/repo/b"
            {| Changed := []; Deleted := ["/repo/a"]; Added := ["/repo/b"] |}
            _ _ _).
  - vm_compute. reflexivity.
  - rewrite !elem_of_cons. auto.
  - intros evt. rewrite !elem_of_cons, elem_of_nil.
    intros [->|[->|[]]]; simpl; [discriminate | reflexivity].
Defined.

(** C4. A path reported by a [Create] and by a [Remove] event that the
    checker does not find is in none of [Added], [Changed], [Deleted]. *)
Theorem batch_transient {T : Type} `{!existenceChecker T} (exists_ : T)
    (evs : list EventInfo) (p : string) (md : Mod) :
  batch exists_ (received evs) = Some md →
  mkEvent Create p ∈ evs →
  mkEvent Remove p ∈ evs →
  Check exists_ p = false →
  (p ∉ Added md) ∧ (p ∉ Changed md) ∧ (p ∉ Deleted md).
Proof.
  rewrite batch_received. intros [= <-] Hcre Hrem Hex.
  destruct (has_accumulated evs p) as (Ha & Hr & Hc & Hn). cbv zeta in *.
  rewrite bool_decide_eq_true_2 in Ha by done.
  rewrite elem_of_Added, elem_of_Changed, elem_of_Deleted, Ha, Hex.
  naive_solver.
Qed.

Lemma batch_transient_witness :
  batch (λ p : string, bool_decide (p = "/repo/a.txt"))
        (received [mkEvent Create "/repo/a.txt"; mkEvent Write "/repo/a.txt";
                   mkEvent Create "/repo/b.txt"; mkEvent Remove "/repo/b.txt"])
  = Some {| Changed := []; Deleted := []; Added := ["/repo/a.txt"] |} ∧
  ("/repo/b.txt" ∉ ["/repo/a.txt"]) ∧ ("/repo/b.txt" ∉ ([] : list string)) ∧
  ("/repo/b.txt" ∉ ([] : list string)).
Proof.
  split; [vm_compute; reflexivity|].
  refine (batch_transient (λ p : string, bool_decide (p = "/repo/a.txt"))
            [mkEvent Create "/repo/a.txt"; mkEvent Write "/repo/a.txt";
             mkEvent Create "/repo/b.txt"; mkEvent Remove "/repo/b.txt"]
            "/repo/b.txt"
            {| Changed := []; Deleted := []; Added := ["/repo/a.txt"] |}
            _ _ _ _).
  - vm_compute. reflexivity.
  - rewrite !elem_of_cons. auto.
  - rewrite !elem_of_cons. auto.
  - vm_compute. reflexivity.
Defined.

(** C5. A path reported by a [Write] and by a [Create] event that the
    checker finds is in [Added], and neither in [Changed] nor in
    [Deleted]. *)
Theorem batch_add_precedence {T : Type} `{!existenceChecker T} (exists_ : T)
    (evs : list EventInfo) (p : string) (md : Mod) :
  batch exists_ (received evs) = Some md →
  mkEvent Write p ∈ evs →
  mkEvent Create p ∈ evs →
  Check exists_ p = true →
  p ∈ Added md ∧ (p ∉ Changed md) ∧ (p ∉ Deleted md).
Proof.
  rewrite batch_received. intros [= <-] Hwri Hcre Hex.
  destruct (has_accumulated evs p) as (Ha & Hr & Hc & Hn). cbv zeta in *.
  rewrite bool_decide_eq_true_2 in Ha by done.
  rewrite elem_of_Added, elem_of_Changed, elem_of_Deleted, Ha, Hex.
  naive_solver.
Qed.

Lemma batch_add_precedence_witness :
  batch (λ p : string, bool_decide (p = "/repo/a.txt"))
        (received [mkEvent Create "/repo/a.txt"; mkEvent Write "/repo/a.txt";
                   mkEvent Create "/repo/b.txt"; mkEvent Remove "/repo/b.txt"])
  = Some {| Changed := []; Deleted := []; Added := ["/repo/a.txt"] |} ∧
  "/repo/a.txt" ∈ ["/repo/a.txt"] ∧ ("/repo/a.txt" ∉ ([] : list string)) ∧
  ("/repo/a.txt" ∉ ([] : list string)).
Proof.
  split; [vm_compute; reflexivity|].
  refine (batch_add_precedence (λ p : string, bool_decide (p = "/repo/a.txt"))
            [mkEvent Create "/repo/a.txt"; mkEvent Write "/repo/a.txt";
             mkEvent Create "/repo/b.txt"; mkEvent Remove "/repo/b.txt"]
            "/repo/a.txt"
            {| Changed := []; Deleted := []; Added := ["/repo/a.txt"] |}
            _ _ _ _).
  - vm_compute. reflexivity.
  - rewrite !elem_of_cons. auto.
  - rewrite !elem_of_cons. auto.
  - vm_compute. reflexivity.
Defined.

(** ** [Mod.Filter] *)

(** C9. [Filter] modifies no object there is, its receiver included, and
    writes neither to the log nor to the channel. When filtering succeeds
    the result points to a new object that holds the three filtered
    sequences; when [filterFiles] returns an error the result is nil and
    nothing at all has changed. It panics on a nil receiver only. *)
Theorem Filter_frame
    (filterFiles : list string → list string → list string * option error)
    (md : ptr) (excludes : list string) (w : world) :
  let r := Filter filterFiles md excludes w in
  (∀ l m, heap w !! l = Some m → heap (world_of r) !! l = Some m) ∧
  (∀ m, load md w = Done m w → load md (world_of r) = Done m (world_of r)) ∧
  shouted (world_of r) = shouted w ∧
  ch (world_of r) = ch w ∧
  match r with
  | Done (ret, None) w' =>
      ∃ l m, load md w = Done m w ∧ ret = addr l ∧ heap w !! l = None ∧
             heap w' =
               <[l := {| Changed := (filterFiles (Changed m) excludes).1;
                         Deleted := (filterFiles (Deleted m) excludes).1;
                         Added := (filterFiles (Added m) excludes).1 |}]>
                 (heap w)
  | Done (ret, Some _) w' => ret = nil_ptr ∧ w' = w
  | Panic w' => w' = w ∧ load md w = Panic w
  end.
Proof.
  cbv zeta.
  assert (∀ l m m', heap w !! l = Some m →
            <[fresh (dom (heap w)) := m']> (heap w) !! l = Some m) as Hkeep.
  { intros l m m' Hl. rewrite lookup_insert_ne; [done|].
    intros <-. by rewrite fresh_loc_None in Hl. }
  unfold Filter, mbind, go_bind.
  destruct md as [|l0]; simpl; [done|].
  destruct (heap w !! l0) as [m0|] eqn:Hl0; simpl; [|by rewrite Hl0].
  destruct (filterFiles (Changed m0) excludes) as [changed [e|]] eqn:Ec;
    simpl; rewrite ?Hl0; simpl; [done|].
  destruct (filterFiles (Deleted m0) excludes) as [deleted [e|]] eqn:Ed;
    simpl; rewrite ?Hl0; simpl; [done|].
  destruct (filterFiles (Added m0) excludes) as [added' [e|]] eqn:Ea;
    simpl; rewrite ?Hl0; simpl; [done|].
  split_and!; try done.
  - intros l m. apply Hkeep.
  - intros m [= <-]. by rewrite (Hkeep l0 m0).
  - exists (fresh (dom (heap w))), m0. split_and!; try done.
    + apply fresh_loc_None.
    + by rewrite Ec, Ed, Ea.
Qed.

(** ** [normPath] *)

(** C10. A path that is under none of the bases, each made absolute, is
    returned by [normPath] as it is and with no error; so are whole
    sequences of such paths by [normPaths], and a [Mod] made of such paths
    comes out of [Mod.normPaths] as a new object with the same three
    sequences. *)
Theorem normPath_outside (Separator : Ascii.ascii)
    (Abs : string → string * option error)
    (Rel : string → string → string * option error)
    (Join : list string → string) (bases : list string) :
  (∀ abspath,
     under_none Separator Abs bases abspath →
     normPath Separator Abs Rel Join bases abspath = (abspath, None)) ∧
  (∀ abspaths,
     Forall (under_none Separator Abs bases) abspaths →
     normPaths Separator Abs Rel Join bases abspaths = (abspaths, None)) ∧
  (∀ w l m,
     heap w !! l = Some m →
     Forall (under_none Separator Abs bases) (Changed m) →
     Forall (under_none Separator Abs bases) (Deleted m) →
     Forall (under_none Separator Abs bases) (Added m) →
     ∃ l', heap w !! l' = None ∧
           Mod_normPaths Separator Abs Rel Join (addr l) bases w
           = Done (addr l', None)
                  (mkWorld (<[l' := m]> (heap w)) (shouted w) (ch w))).
Proof.
  split_and!.
  - apply normPath_under_none.
  - apply normPaths_under_none.
  - intros w l [changed deleted added'] Hl Hc Hd Ha. simpl in *.
    exists (fresh (dom (heap w))). split; [apply fresh_loc_None|].
    unfold Mod_normPaths, mbind, go_bind, load. rewrite Hl. simpl.
    rewrite (normPaths_under_none _ _ _ _ _ _ Hc). rewrite Hl. simpl.
    rewrite (normPaths_under_none _ _ _ _ _ _ Hd). rewrite Hl. simpl.
    by rewrite (normPaths_under_none _ _ _ _ _ _ Ha).
Qed.

Lemma normPath_outside_witness :
  normPath "/" (λ base, (base, None)) (λ _ target, (target, None))
           (λ elem, default "" (head elem)) ["/repo"; "/srv/www"] "/repository/x"
  = ("/repository/x", None).
Proof.
  apply (normPath_outside "/" (λ base, (base, None))
           (λ _ target, (target, None)) (λ elem, default "" (head elem))
           ["/repo"; "/srv/www"]).
  repeat constructor.
Defined.

(** ** The debounce loop *)

(** C7. Started at [now] with the channel holding [chq], [batch] returns
    on a timer step and never on a receive step; the timer that fires is
    the one started at the last receipt (at [now] when nothing was
    received), a full [batchTime] before the return; no event left in the
    channel was sent before the return; every event received was received
    within [batchTime] of the receipt before it; and a burst of events each
    sent less than [batchTime] after the one before is received whole,
    however long it lasts. *)
Theorem batch_debounce {T : Type} `{!existenceChecker T} (exists_ : T)
    (tie : nat → bool) (batchTime now : Z) (chq : list arrival) :
  (0 < batchTime)%Z →
  let r := batch_timed exists_ tie batchTime 0 now accum_init chq in
  batch exists_ (received (got r).*2) = Some (result r) ∧
  (∀ evs, batch exists_ (Recv <$> evs) = None) ∧
  (got r).*2 = sent <$> take (length (got r)) chq ∧
  left_in_ch r = drop (length (got r)) chq ∧
  returned_at r = (last_receipt now (got r) + batchTime)%Z ∧
  (∀ a, head (left_in_ch r) = Some a → (returned_at r ≤ sent_at a)%Z) ∧
  (∀ i t evt a,
     got r !! i = Some (t, evt) → chq !! i = Some a →
     (sent_at a ≤ t ≤ last_receipt now (take i (got r)) + batchTime)%Z) ∧
  (burst batchTime now chq →
     got r = (λ a, (sent_at a, sent a)) <$> chq ∧ left_in_ch r = []).
Proof.
  intros Hpos r.
  destruct (batch_timed_split exists_ tie batchTime 0 now accum_init chq)
    as [Hleft Hgot].
  destruct (batch_timed_quiet exists_ tie batchTime 0 now accum_init chq Hpos)
    as [Hat Hquiet].
  split_and!; try done.
  - apply batch_timed_result.
  - intros evs. apply batch_from_Recv.
  - intros i t evt a Hi Ha.
    destruct (batch_timed_receipts exists_ tie batchTime 0 now accum_init chq
                i t evt a Hi Ha) as (? & ? & Hle).
    unfold timer_at in Hle. fold r in Hle. lia.
  - apply batch_timed_burst.
Qed.

Lemma batch_debounce_witness :
  let r := batch_timed (λ p : string, bool_decide (p = "/repo/a.txt"))
             (λ _, false) 200000000 0 0 accum_init
             [mkArrival 0 (mkEvent Create "/repo/a.txt");
              mkArrival 50000000 (mkEvent Write "/repo/a.txt");
              mkArrival 60000000 (mkEvent Create "/repo/b.txt");
              mkArrival 70000000 (mkEvent Remove "/repo/b.txt");
              mkArrival 270000000 (mkEvent Write "/repo/c.txt")] in
  returned_at r = 270000000%Z ∧
  result r = {| Changed := []; Deleted := []; Added := ["/repo/a.txt"] |} ∧
  left_in_ch r = [mkArrival 270000000 (mkEvent Write "/repo/c.txt")].
Proof.
  intros r.
  destruct (batch_debounce (λ p : string, bool_decide (p = "/repo/a.txt"))
              (λ _, false) 200000000 0
              [mkArrival 0 (mkEvent Create "/repo/a.txt");
               mkArrival 50000000 (mkEvent Write "/repo/a.txt");
               mkArrival 60000000 (mkEvent Create "/repo/b.txt");
               mkArrival 70000000 (mkEvent Remove "/repo/b.txt");
               mkArrival 270000000 (mkEvent Write "/repo/c.txt")])
    as (_ & _ & _ & _ & Hat & _); [lia|].
  subst r. split; [rewrite Hat; vm_compute; reflexivity|].
  vm_compute. split; reflexivity.
Defined.

(** ** The goroutine of [Watch] *)

(** C6. A call of [batch] that receives no event returns a [Mod] for
    which [Empty] is true; and whatever the goroutine of [Watch] sends on
    its channel, over any number of turns, is a [Mod] for which [Empty] is
    false. *)
Theorem empty_cycle_suppressed :
  (∀ (T : Type) (EC : existenceChecker T) (exists_ : T),
     batch exists_ (received []) = Some Mod_zero ∧ Empty Mod_zero = true) ∧
  (∀ Separator Abs Rel Join filterFiles paths excludes cycles w,
     ∃ out,
       ch (world_of (Watch_loop Separator Abs Rel Join filterFiles
                                paths excludes cycles w))
       = ch w ++ out ∧
       Forall (λ m, Empty m = false) out).
Proof.
  split.
  - intros T EC exists_. split; reflexivity.
  - intros. apply sends_Watch_loop.
Qed.

(** C2. What the code does when post-processing fails: if [Mod.normPaths]
    or, after it, [Mod.Filter] returns an error for the [Mod] of a turn, the
    goroutine of [Watch] writes one line to the log, sends nothing, and
    panics on the nil pointer the failed call returned; the turns that
    follow do not run. *)
Theorem Watch_loop_error_panics (Separator : Ascii.ascii)
    (Abs : string → string * option error)
    (Rel : string → string → string * option error)
    (Join : list string → string)
    (filterFiles : list string → list string → list string * option error)
    (paths excludes : list string) (c : cycle) (cycles : list cycle)
    (m : Mod) (w : world) :
  batch (stat c) (outcomes c) = Some m →
  (∃ ret w0, new m w = Done ret w0 ∧
     ((∃ r e w1,
         Mod_normPaths Separator Abs Rel Join ret paths w0
         = Done (r, Some e) w1) ∨
      (∃ r1 w1 r2 e w2,
         Mod_normPaths Separator Abs Rel Join ret paths w0
         = Done (r1, None) w1 ∧
         Filter filterFiles r1 excludes w1 = Done (r2, Some e) w2))) →
  ∃ w' line,
    Watch_loop Separator Abs Rel Join filterFiles paths excludes
               (c :: cycles) w = Panic w' ∧
    ch w' = ch w ∧ shouted w' = shouted w ++ [line].
Proof.
  intros Hbatch (ret & w0 & Hnew & Herr). simpl. rewrite Hbatch.
  unfold mbind at 1. unfold go_bind at 1. rewrite Hnew.
  rewrite new_Done in Hnew. injection Hnew as <- <-.
  unfold mbind at 1. unfold go_bind at 1.
  destruct Herr as [(r & e & w1 & Hnorm)|(r1 & w1 & r2 & e & w2 & Hnorm & Hfilter)].
  - erewrite Watch_forward_normPaths_error by done. by eexists _, _.
  - erewrite Watch_forward_Filter_error by done.
    match type of Hnorm with
    | Mod_normPaths _ _ _ _ ?p _ ?w0 = _ =>
        pose proof (Mod_normPaths_quiet Separator Abs Rel Join p paths w0) as Hq
    end.
    cbv zeta in Hq. rewrite Hnorm in Hq. simpl in Hq. destruct Hq as [Hs Hc].
    eexists _, _. split; [done|]. simpl. by rewrite Hs, Hc.
Qed.

Lemma Watch_loop_error_panics_witness :
  ∃ w' line,
    Watch_loop "/" Standin.Abs Standin.Rel Standin.Join Standin.filterFiles
      ["/repo"] ["["]
      [mkCycle (mkStat (λ _, None)) (received [mkEvent Write "/repo/a.txt"]);
       mkCycle (mkStat (λ _, None)) (received [mkEvent Write "/repo/b.txt"])]
      (mkWorld ∅ [] [])
    = Panic w' ∧
    ch w' = [] ∧ shouted w' = [] ++ [line].
Proof.
  apply (Watch_loop_error_panics "/" Standin.Abs Standin.Rel Standin.Join
           Standin.filterFiles ["/repo"] ["["]
           (mkCycle (mkStat (λ _, None)) (received [mkEvent Write "/repo/a.txt"]))
           [mkCycle (mkStat (λ _, None)) (received [mkEvent Write "/repo/b.txt"])]
           {| Changed := ["/repo/a.txt"]; Deleted := []; Added := [] |}
           (mkWorld ∅ [] [])).
  - vm_compute. reflexivity.
  - eexists _, _. split; [reflexivity|]. right.
    eexists _, _, _, _, _. split; vm_compute; reflexivity.
Defined.

(** * Further properties *)

(** ** [isUnder] *)

Section IsUnderFacts.

Variable Separator : Ascii.ascii.

Implicit Types (s parent child rest : string).

Lemma prefix_app s1 s2 :
  String.prefix s1 s2 = true ↔ ∃ rest, s2 = s1 +:+ rest.
Proof.
  revert s2. induction s1 as [|a s1 IH]; intros s2.
  - split; [intros _; by exists s2 | by destruct s2].
  - destruct s2 as [|b s2]; simpl.
    + split; [done | by intros [rest ?]].
    + destruct (Ascii.ascii_dec a b) as [->|Hne].
      * rewrite IH. split; intros [rest Hr]; exists rest.
        -- by rewrite Hr.
        -- by injection Hr.
      * split; [done|]. intros [rest Hr]. by injection Hr.
Qed.

Lemma strings_Index_0 s substr :
  (strings_Index s substr =? 0)%Z = true ↔ ∃ rest, s = substr +:+ rest.
Proof.
  rewrite <- prefix_app. unfold strings_Index.
  destruct s as [|b s]; cbn [String.index].
  - by destruct substr.
  - destruct (String.prefix substr (String b s)); [done|].
    destruct (String.index 0 substr s); split; try done; lia.
Qed.

Lemma app_string_cons (a : Ascii.ascii) s1 s2 :
  String a s1 +:+ s2 = String a (s1 +:+ s2).
Proof. reflexivity. Qed.

Lemma length_app_string s1 s2 :
  String.length (s1 +:+ s2) = String.length s1 + String.length s2.
Proof.
  induction s1 as [|a s1 IH]; [done|].
  rewrite app_string_cons. simpl. by rewrite IH.
Qed.

Lemma get_app_length s1 s2 :
  String.get (String.length s1) (s1 +:+ s2) = String.get 0 s2.
Proof. by rewrite (String.append_correct2 s1 s2 0). Qed.

Lemma app_string_assoc s1 s2 s3 : (s1 +:+ s2) +:+ s3 = s1 +:+ (s2 +:+ s3).
Proof.
  induction s1 as [|a s1 IH]; [done|]. by rewrite !app_string_cons, IH.
Qed.

Lemma app_string_empty_r s : s +:+ "" = s.
Proof.
  induction s as [|a s IH]; [done|]. by rewrite app_string_cons, IH.
Qed.

End IsUnderFacts.

Lemma isUnder_shape (Separator : Ascii.ascii) (parent child : string) :
  isUnder Separator parent child = true ↔
  ToSlash Separator child = ToSlash Separator parent ∨
  ∃ rest, ToSlash Separator child
          = ToSlash Separator parent +:+ String "/" rest.
Proof.
  unfold isUnder.
  generalize (ToSlash Separator parent) (ToSlash Separator child).
  intros P C.
  destruct (strings_Index C P =? 0)%Z eqn:Hoff; simpl.
  - apply strings_Index_0 in Hoff as [rest ->].
    rewrite length_app_string. unfold byte_at_is. rewrite get_app_length.
    destruct rest as [|c rest]; simpl.
    + rewrite Nat.add_0_r, Nat.eqb_refl. simpl. split; [intros _|done].
      left. apply app_string_empty_r.
    + replace (String.length P + S (String.length rest) =? String.length P)
        with false by (symmetry; apply Nat.eqb_neq; lia).
      simpl. destruct (Ascii.eqb_spec c "/") as [->|Hne].
      * split; [intros _|done]. right. by exists rest.
      * split; [done|]. intros [Heq|[rest' Heq]].
        -- apply (f_equal String.length) in Heq.
           rewrite length_app_string in Heq. simpl in Heq. lia.
        -- apply String.app_inj in Heq. by injection Heq.
  - split; [done|]. intros Hshape.
    assert ((strings_Index C P =? 0)%Z = true) as Hoff'; [|congruence].
    apply strings_Index_0. destruct Hshape as [->|[rest ->]]; [|by eexists].
    exists "". by rewrite app_string_empty_r.
Qed.

(** X1. [isUnder parent child] is true exactly when, separators turned into
    slashes, [child] is [parent] itself or [parent] followed by a slash and
    anything: a longer name that merely starts like [parent] is not under
    it. *)
Theorem isUnder_iff (Separator : Ascii.ascii) (parent child : string) :
  isUnder Separator parent child = true ↔
  ToSlash Separator child = ToSlash Separator parent ∨
  ∃ rest, ToSlash Separator child
          = ToSlash Separator parent +:+ String "/" rest.
Proof. apply isUnder_shape. Qed.

(** X2. [isUnder] is transitive: what is under a path that is under
    [p1] is under [p1]. *)
Theorem isUnder_trans (Separator : Ascii.ascii) (p1 p2 p3 : string) :
  isUnder Separator p1 p2 = true → isUnder Separator p2 p3 = true →
  isUnder Separator p1 p3 = true.
Proof.
  rewrite !isUnder_shape.
  intros [->|[r1 ->]] [->|[r2 ->]]; eauto.
  right. exists (r1 +:+ String "/" r2). by rewrite app_string_assoc.
Qed.

Lemma isUnder_trans_witness : isUnder "/" "/repo" "/repo/src/a.go" = true.
Proof.
  apply (isUnder_trans "/" "/repo" "/repo/src" "/repo/src/a.go");
    reflexivity.
Defined.

(** ** [normPath] and [normPaths] *)

Section NormFacts.

Variable Separator : Ascii.ascii.
Variable Abs : string → string * option error.
Variable Rel : string → string → string * option error.
Variable Join : list string → string.

Implicit Types (bases pre post ps rs : list string) (p r base : string).

Lemma normPath_skip pre bases p :
  under_none Separator Abs pre p →
  normPath Separator Abs Rel Join (pre ++ bases) p
  = normPath Separator Abs Rel Join bases p.
Proof.
  induction 1 as [|base pre Hbase _ IH]; simpl; [done|].
  destruct (Abs base) as [absbase err]. simpl in Hbase. by rewrite Hbase.
Qed.

Lemma normPath_shape bases p :
  (normPath Separator Abs Rel Join bases p = (p, None) ∧
   under_none Separator Abs bases p) ∨
  (∃ base relpath,
     base ∈ bases ∧ isUnder Separator (Abs base).1 p = true ∧
     Rel (Abs base).1 p = (relpath, None) ∧
     normPath Separator Abs Rel Join bases p = (Join [base; relpath], None)) ∨
  (∃ e, normPath Separator Abs Rel Join bases p = ("", Some e)).
Proof.
  induction bases as [|base bases IH]; simpl.
  - left. split; [done | constructor].
  - destruct (Abs base) as [absbase err] eqn:HAbs.
    destruct (isUnder Separator absbase p) eqn:Hunder.
    + destruct err as [e|]; [right; right; by exists e|].
      destruct (Rel absbase p) as [relpath [e|]] eqn:HRel;
        [right; right; by exists e|].
      right. left. exists base, relpath. rewrite HAbs. simpl.
      split_and!; try done. set_solver.
    + destruct IH as [[Hn Hu]|[(b & relpath & Hb & Hub & HRel & Hn)|[e He]]].
      * left. split; [done|]. constructor; [by rewrite HAbs | done].
      * right. left. exists b, relpath. split_and!; try done. set_solver.
      * right. right. by exists e.
Qed.

(** The loop of [normPaths] stores one result for each path, in order,
    and gives up at the first error. *)
Lemma normPaths_from_shape bases ps pre (d : string) :
  match normPaths_from Separator Abs Rel Join bases
          (pre ++ replicate (length ps) d) (length pre) ps with
  | (ret, None) =>
      ∃ rs, ret = pre ++ rs ∧
            Forall2 (λ p r, normPath Separator Abs Rel Join bases p = (r, None))
                    ps rs
  | (ret, Some e) =>
      ret = [] ∧
      ∃ ps1 p ps2,
        ps = ps1 ++ p :: ps2 ∧
        normPath Separator Abs Rel Join bases p = ("", Some e) ∧
        Forall (λ p', (normPath Separator Abs Rel Join bases p').2 = None) ps1
  end.
Proof.
  revert pre. induction ps as [|p ps IH]; intros pre; simpl.
  - exists []. by rewrite app_nil_r.
  - assert (∀ r, <[length pre := r]> (pre ++ d :: replicate (length ps) d)
                 = (pre ++ [r]) ++ replicate (length ps) d ∧
                 S (length pre) = length (pre ++ [r])) as Hstep.
    { intros r. split.
      - replace (length pre) with (length pre + 0) at 1 by lia.
        rewrite insert_app_r. simpl. by rewrite <- (assoc_L (++)).
      - rewrite length_app. simpl. lia. }
    destruct (normPath Separator Abs Rel Join bases p) as [r [e|]] eqn:Hn.
    + split; [done|]. exists [], p, ps. split_and!; [done| |done].
      destruct (normPath_shape bases p)
        as [[Hn' _]|[(? & ? & _ & _ & _ & Hn')|[e' Hn']]]; congruence.
    + destruct (Hstep r) as [-> ->]. specialize (IH (pre ++ [r])).
      destruct (normPaths_from _ _ _ _ _ _ _ _) as [ret [e|]].
      * destruct IH as (-> & ps1 & p' & ps2 & -> & He & Hok).
        split; [done|]. exists (p :: ps1), p', ps2.
        split_and!; [done|done|]. constructor; [by rewrite Hn | done].
      * destruct IH as (rs & -> & Hall). exists (r :: rs).
        rewrite <- (assoc_L (++)). split; [done|]. by constructor.
Qed.

End NormFacts.

(** X3. The first base a path is under decides: the bases before it are
    passed over, those after it are not looked at, and the result is that
    base joined to the relative path, or the error of [filepath.Abs] or of
    [filepath.Rel] with the empty string. *)
Theorem normPath_first_base (Separator : Ascii.ascii)
    (Abs : string → string * option error)
    (Rel : string → string → string * option error)
    (Join : list string → string)
    (pre post : list string) (base abspath : string) :
  under_none Separator Abs pre abspath →
  isUnder Separator (Abs base).1 abspath = true →
  normPath Separator Abs Rel Join (pre ++ base :: post) abspath
  = match Abs base with
    | (_, Some e) => ("", Some e)
    | (absbase, None) =>
        match Rel absbase abspath with
        | (_, Some e) => ("", Some e)
        | (relpath, None) => (Join [base; relpath], None)
        end
    end.
Proof.
  intros Hpre Hbase. rewrite normPath_skip by done. simpl.
  destruct (Abs base) as [absbase err]. simpl in Hbase. rewrite Hbase.
  destruct err; [done|]. by destruct (Rel absbase abspath) as [? [?|]].
Qed.

Lemma normPath_first_base_witness :
  normPath "/" Standin.Abs Standin.Rel Standin.Join
           ["/srv"; "/repo/src"; "/repo"] "/repo/src/a.go"
  = ("/repo/src/a.go", None).
Proof.
  apply (normPath_first_base "/" Standin.Abs Standin.Rel Standin.Join
           ["/srv"] ["/repo"] "/repo/src" "/repo/src/a.go").
  - repeat constructor.
  - reflexivity.
Defined.

(** X4. [normPath] returns the path as it is when it is under none of the
    bases, or one of the bases joined to a relative path that
    [filepath.Rel] gave for it, or an error together with the empty
    string; nothing else. *)
Theorem normPath_cases (Separator : Ascii.ascii)
    (Abs : string → string * option error)
    (Rel : string → string → string * option error)
    (Join : list string → string) (bases : list string) (abspath : string) :
  (normPath Separator Abs Rel Join bases abspath = (abspath, None) ∧
   under_none Separator Abs bases abspath) ∨
  (∃ base relpath,
     base ∈ bases ∧ isUnder Separator (Abs base).1 abspath = true ∧
     Rel (Abs base).1 abspath = (relpath, None) ∧
     normPath Separator Abs Rel Join bases abspath
     = (Join [base; relpath], None)) ∨
  (∃ e, normPath Separator Abs Rel Join bases abspath = ("", Some e)).
Proof. apply normPath_shape. Qed.

(** X5. [normPaths] succeeds exactly when [normPath] succeeds on every
    path, and then returns the results one for one and in order; otherwise
    it returns the nil slice with the error of the first path that
    fails. *)
Theorem normPaths_pointwise (Separator : Ascii.ascii)
    (Abs : string → string * option error)
    (Rel : string → string → string * option error)
    (Join : list string → string) (bases abspaths : list string) :
  match normPaths Separator Abs Rel Join bases abspaths with
  | (ret, None) =>
      Forall2 (λ p r, normPath Separator Abs Rel Join bases p = (r, None))
              abspaths ret
  | (ret, Some e) =>
      ret = [] ∧
      ∃ ps1 p ps2,
        abspaths = ps1 ++ p :: ps2 ∧
        normPath Separator Abs Rel Join bases p = ("", Some e) ∧
        Forall (λ p', (normPath Separator Abs Rel Join bases p').2 = None) ps1
  end.
Proof.
  unfold normPaths.
  pose proof (normPaths_from_shape Separator Abs Rel Join bases abspaths [] "")
    as Hshape.
  simpl in Hshape.
  destruct (normPaths_from _ _ _ _ _ _ _ _) as [ret [e|]]; [done|].
  by destruct Hshape as (rs & -> & Hall).
Qed.

(** ** [Mod.Empty], [Mod.All] and [_keys] *)

Lemma elem_of_All (md : Mod) (p : string) :
  p ∈ All md ↔ p ∈ Added md ∨ p ∈ Changed md ∨ p ∈ Deleted md.
Proof.
  unfold All. rewrite elem_of__keys, !lookup_foldl_mark, lookup_empty.
  repeat case_bool_decide; split; try naive_solver; intros _; by eexists.
Qed.

(** X6. [Empty] is true exactly when the three sequences are empty, and
    exactly when [All] returns nothing. *)
Theorem Empty_iff_All_nil (md : Mod) :
  (Empty md = true ↔ Changed md = [] ∧ Deleted md = [] ∧ Added md = []) ∧
  (Empty md = true ↔ All md = []).
Proof.
  assert (Empty md = true ↔ Changed md = [] ∧ Deleted md = [] ∧ Added md = [])
    as Hfields.
  { unfold Empty. destruct md as [[|c cs] [|d ds] [|a as_]]; simpl;
      repeat case_bool_decide; simpl in *; split; try done; try lia;
      by intros (? & ? & ?). }
  split; [done|]. rewrite Hfields. split.
  - intros (Hc & Hd & Ha). apply elem_of_nil_inv. intros p.
    rewrite elem_of_All, Hc, Hd, Ha. set_solver.
  - intros Hall.
    assert (∀ p, ¬ (p ∈ Added md ∨ p ∈ Changed md ∨ p ∈ Deleted md)) as Hno.
    { intros p. rewrite <- elem_of_All, Hall. apply not_elem_of_nil. }
    split_and!; apply elem_of_nil_inv; intros p Hp; apply (Hno p); auto.
Qed.

(** X7. [_keys] returns every key of the map once, and nothing else, in
    increasing order; so it has as many elements as the map has keys, and is
    nil for the empty map only. *)
Theorem _keys_exact (m : gmap string bool) :
  StronglySorted String.le (_keys m) ∧
  NoDup (_keys m) ∧
  (∀ k, k ∈ _keys m ↔ is_Some (m !! k)) ∧
  length (_keys m) = size m ∧
  (_keys m = [] ↔ m = ∅).
Proof.
  assert (length (_keys m) = size m) as Hlen.
  { rewrite _keys_sort. unfold sort_Strings.
    by rewrite merge_sort_Permutation, length_range. }
  split_and!; [apply Sorted__keys | apply NoDup__keys | apply elem_of__keys
               | done |].
  rewrite <- map_size_empty_iff, <- Hlen. by destruct (_keys m).
Qed.

(** ** What [batch] reports *)

Section BatchReports.

Context {T : Type} `{!existenceChecker T}.
Variable exists_ : T.

Implicit Types (evs : list EventInfo) (p : string).

(** Where a path ends up, from the events received for it and the answer
    of the checker. *)
Lemma timeout_case_elem_of evs p :
  let md := timeout_case exists_ (foldl event_case accum_init evs) in
  (p ∈ Added md ↔
     Check exists_ p = true ∧
     (mkEvent Create p ∈ evs ∨ mkEvent Rename p ∈ evs)) ∧
  (p ∈ Deleted md ↔
     Check exists_ p = false ∧ (mkEvent Create p ∉ evs) ∧
     (mkEvent Remove p ∈ evs ∨ mkEvent Rename p ∈ evs)) ∧
  (p ∈ Changed md ↔
     mkEvent Write p ∈ evs ∧ (mkEvent Create p ∉ evs) ∧
     (mkEvent Rename p ∉ evs) ∧
     (mkEvent Remove p ∉ evs ∨ Check exists_ p = true)).
Proof.
  cbv zeta. rewrite elem_of_Added, elem_of_Deleted, elem_of_Changed.
  destruct (has_accumulated evs p) as (-> & -> & -> & ->).
  rewrite !bool_decide_eq_true, !bool_decide_eq_false. done.
Qed.

(** The maps after the events depend on which events were received, not
    on their order or number. *)
Lemma foldl_event_case_ext evs1 evs2 :
  (∀ evt, Event evt ≠ OtherEvent → evt ∈ evs1 ↔ evt ∈ evs2) →
  foldl event_case accum_init evs1 = foldl event_case accum_init evs2.
Proof.
  intros Hsame.
  destruct (foldl_event_case accum_init evs1) as (Ha1 & Hr1 & Hc1 & Hn1).
  destruct (foldl_event_case accum_init evs2) as (Ha2 & Hr2 & Hc2 & Hn2).
  apply accum_eq; apply map_eq; intros p;
    rewrite ?Ha1, ?Ha2, ?Hr1, ?Hr2, ?Hc1, ?Hc2, ?Hn1, ?Hn2;
    match goal with
    | |- context [bool_decide (mkEvent ?kind p ∈ evs1)] =>
        assert (Event (mkEvent kind p) ≠ OtherEvent) as Hkind by done;
        by rewrite (bool_decide_ext _ _ (Hsame (mkEvent kind p) Hkind))
    end.
Qed.

End BatchReports.

(** X8. Each of [Added], [Changed] and [Deleted] of the [Mod] [batch]
    returns is in increasing order and without duplicates. *)
Theorem batch_sequences_sorted {T : Type} `{!existenceChecker T} (exists_ : T)
    (evs : list EventInfo) :
  ∃ md, batch exists_ (received evs) = Some md ∧
        Forall (λ l, StronglySorted String.le l ∧ NoDup l)
               [Added md; Changed md; Deleted md].
Proof.
  eexists. split; [apply batch_received|].
  unfold timeout_case. simpl.
  repeat constructor; apply Sorted__keys || apply NoDup__keys.
Qed.

(** X9. The result agrees with the checker: every path in [Added] is one
    the checker finds, and every path in [Deleted] one it does not find. *)
Theorem batch_agrees_with_checker {T : Type} `{!existenceChecker T}
    (exists_ : T) (evs : list EventInfo) :
  ∃ md, batch exists_ (received evs) = Some md ∧
        Forall (λ p, Check exists_ p = true) (Added md) ∧
        Forall (λ p, Check exists_ p = false) (Deleted md).
Proof.
  eexists. split; [apply batch_received|].
  split; apply Forall_forall; intros p Hp;
    by apply (timeout_case_elem_of exists_ evs p) in Hp as [? _].
Qed.

(** X10. [batch] reports no path of its own: every path in the result is
    the path of a [Create], [Remove], [Write] or [Rename] event it
    received; events of other kinds add nothing. *)
Theorem batch_reports_received {T : Type} `{!existenceChecker T}
    (exists_ : T) (evs : list EventInfo) :
  ∃ md, batch exists_ (received evs) = Some md ∧
        ∀ p, p ∈ Added md ∨ p ∈ Changed md ∨ p ∈ Deleted md →
             ∃ evt, evt ∈ evs ∧ Path evt = p ∧ Event evt ≠ OtherEvent.
Proof.
  eexists. split; [apply batch_received|]. intros p.
  destruct (timeout_case_elem_of exists_ evs p) as (Ha & Hd & Hc).
  rewrite Ha, Hd, Hc.
  intros [(_ & [?|?])|[(? & _)|(_ & _ & [?|?])]]; by eexists (mkEvent _ p).
Qed.

(** X11. Where a path is reported is decided by the kinds of events
    received for it and by the checker alone: it is in [Added] when the
    checker finds it and it had a [Create] or a [Rename]; in [Deleted] when
    the checker does not find it and it had a [Remove] or a [Rename] but no
    [Create]; in [Changed] when it had a [Write], neither [Create] nor
    [Rename], and no [Remove] unless the checker finds it. *)
Theorem batch_classification {T : Type} `{!existenceChecker T}
    (exists_ : T) (evs : list EventInfo) :
  ∃ md, batch exists_ (received evs) = Some md ∧
    ∀ p,
      (p ∈ Added md ↔
         Check exists_ p = true ∧
         (mkEvent Create p ∈ evs ∨ mkEvent Rename p ∈ evs)) ∧
      (p ∈ Deleted md ↔
         Check exists_ p = false ∧ (mkEvent Create p ∉ evs) ∧
         (mkEvent Remove p ∈ evs ∨ mkEvent Rename p ∈ evs)) ∧
      (p ∈ Changed md ↔
         mkEvent Write p ∈ evs ∧ (mkEvent Create p ∉ evs) ∧
         (mkEvent Rename p ∉ evs) ∧
         (mkEvent Remove p ∉ evs ∨ Check exists_ p = true)).
Proof.
  eexists. split; [apply batch_received|]. apply timeout_case_elem_of.
Qed.

(** X12. The order in which the events of a cycle arrive, how often each
    of them arrives, and the events of kinds other than [Create], [Remove],
    [Write] and [Rename] do not show in the result. *)
Theorem batch_event_order {T : Type} `{!existenceChecker T} (exists_ : T)
    (evs1 evs2 : list EventInfo) :
  (∀ evt, Event evt ≠ OtherEvent → evt ∈ evs1 ↔ evt ∈ evs2) →
  batch exists_ (received evs1) = batch exists_ (received evs2).
Proof.
  intros Hsame. rewrite !batch_received.
  by rewrite (foldl_event_case_ext evs1 evs2 Hsame).
Qed.

Lemma batch_event_order_witness :
  batch (λ p : string, bool_decide (p = "/repo/a"))
        (received [mkEvent Remove "/repo/b"; mkEvent Create "/repo/a";
                   mkEvent OtherEvent "/repo/c"; mkEvent Remove "/repo/b"])
  = batch (λ p : string, bool_decide (p = "/repo/a"))
          (received [mkEvent Create "/repo/a"; mkEvent Remove "/repo/b"]).
Proof.
  apply (batch_event_order (λ p : string, bool_decide (p = "/repo/a"))).
  intros evt Hkind. rewrite !elem_of_cons, !elem_of_nil.
  split; [|tauto]. intros [?|[?|[->|[?|[]]]]]; auto.
Defined.

(** X13. A path with a [Remove] and no [Create] that the checker does not
    find is in [Deleted] and nowhere else, whether or not it was written
    to. *)
Theorem batch_delete_precedence {T : Type} `{!existenceChecker T}
    (exists_ : T) (evs : list EventInfo) (p : string) (md : Mod) :
  batch exists_ (received evs) = Some md →
  mkEvent Remove p ∈ evs →
  (mkEvent Create p ∉ evs) →
  Check exists_ p = false →
  p ∈ Deleted md ∧ (p ∉ Added md) ∧ (p ∉ Changed md).
Proof.
  rewrite batch_received. intros [= <-] Hrem Hcre Hex.
  destruct (timeout_case_elem_of exists_ evs p) as (-> & -> & ->).
  rewrite Hex. naive_solver.
Qed.

Lemma batch_delete_precedence_witness :
  batch (λ _ : string, false)
        (received [mkEvent Write "/repo/a"; mkEvent Remove "/repo/a"])
  = Some {| Changed := []; Deleted := ["/repo/a"]; Added := [] |} ∧
  "/repo/a" ∈ ["/repo/a"] ∧ ("/repo/a" ∉ ([] : list string)) ∧
  ("/repo/a" ∉ ([] : list string)).
Proof.
  split; [vm_compute; reflexivity|].
  refine (batch_delete_precedence (λ _ : string, false)
            [mkEvent Write "/repo/a"; mkEvent Remove "/repo/a"] "/repo/a"
            {| Changed := []; Deleted := ["/repo/a"]; Added := [] |} _ _ _ _).
  - vm_compute. reflexivity.
  - rewrite !elem_of_cons. auto.
  - rewrite !elem_of_cons, elem_of_nil. intros [[=]|[[=]|[]]].
  - reflexivity.
Defined.

(** X14. Go does not fix the order in which [range] yields the keys of a
    map: whatever the order in each of the three loops of the resolution and
    in the loop of [_keys], the maps and the sequences come out the same. *)
Theorem range_order_irrelevant {T : Type} `{!existenceChecker T} (exists_ : T)
    (ksn ksa ksr : accum → list string) (ks : list string)
    (st : accum) (m : gmap string bool) :
  (∀ st, ksn st ≡ₚ range (renamed st)) →
  (∀ st, ksa st ≡ₚ range (added st)) →
  (∀ st, ksr st ≡ₚ range (removed st)) →
  ks ≡ₚ range m →
  resolve_in exists_ ksn ksa ksr st = resolve exists_ st ∧
  _keys_in ks m = _keys m.
Proof.
  intros Hn Ha Hr Hk. split.
  - by apply resolve_in_order.
  - by apply _keys_in_order.
Qed.

Lemma range_order_irrelevant_witness :
  resolve_in (λ _ : string, true)
    (λ st, reverse (range (renamed st))) (λ st, reverse (range (added st)))
    (λ st, reverse (range (removed st)))
    (foldl event_case accum_init
       [mkEvent Rename "/a"; mkEvent Rename "/b"; mkEvent Write "/a"])
  = resolve (λ _ : string, true)
      (foldl event_case accum_init
         [mkEvent Rename "/a"; mkEvent Rename "/b"; mkEvent Write "/a"]) ∧
  _keys_in ["/b"; "/a"] {["/a" := true; "/b" := true]}
  = _keys {["/a" := true; "/b" := true]}.
Proof.
  apply (range_order_irrelevant (λ _ : string, true)).
  - intros st. apply reverse_Permutation.
  - intros st. apply reverse_Permutation.
  - intros st. apply reverse_Permutation.
  - vm_compute. apply perm_swap.
Defined.

(** ** What the goroutine keeps *)

Section GrowsFacts.

Context {A B : Type}.

Lemma world_le_refl w : world_le w w.
Proof. by split_and!. Qed.

Lemma world_le_trans w1 w2 w3 : world_le w1 w2 → world_le w2 w3 → world_le w1 w3.
Proof.
  intros (Hh1 & Hs1 & Hc1) (Hh2 & Hs2 & Hc2). split_and!.
  - eauto.
  - by etrans.
  - by etrans.
Qed.

Lemma grows_ret (a : A) : grows (mret a).
Proof. intros w. apply world_le_refl. Qed.

Lemma grows_bind (c : go A) (f : A → go B) :
  grows c → (∀ a, grows (f a)) → grows (c ≫= f).
Proof.
  intros Hc Hf w. specialize (Hc w). unfold mbind, go_bind.
  destruct (c w) as [a w1|w1]; simpl in *; [|done].
  eapply world_le_trans; [done | apply Hf].
Qed.

Lemma grows_load (p : ptr) : grows (load p).
Proof.
  intros w. unfold load. destruct p as [|l]; [apply world_le_refl|].
  destruct (heap w !! l); apply world_le_refl.
Qed.

Lemma grows_new (m : Mod) : grows (new m).
Proof.
  intros w. simpl. split_and!; simpl; [|done..].
  intros l m' Hl. rewrite lookup_insert_ne; [done|].
  intros <-. by rewrite fresh_loc_None in Hl.
Qed.

Lemma grows_Shout (format : string) (err : error) : grows (Shout format err).
Proof. intros w. split_and!; simpl; [done | by apply prefix_app_r | done]. Qed.

Lemma grows_send (m : Mod) : grows (send m).
Proof. intros w. split_and!; simpl; [done | done | by apply prefix_app_r]. Qed.

End GrowsFacts.

Section SessionRuns.

Variable Separator : Ascii.ascii.
Variable Abs : string → string * option error.
Variable Rel : string → string → string * option error.
Variable Join : list string → string.
Variable filterFiles : list string → list string → list string * option error.

Implicit Types (w : world) (l : loc) (m : Mod) (paths excludes : list string).

Lemma grows_Filter (md : ptr) excludes : grows (Filter filterFiles md excludes).
Proof.
  unfold Filter.
  repeat first
    [ apply grows_bind; [apply grows_load || apply grows_new | intros ?]
    | apply grows_ret
    | match goal with
      | |- context [filterFiles ?fs ?ex] => destruct (filterFiles fs ex) as [? [?|]]
      end ].
Qed.

Lemma grows_Mod_normPaths (md : ptr) bases :
  grows (Mod_normPaths Separator Abs Rel Join md bases).
Proof.
  unfold Mod_normPaths.
  repeat first
    [ apply grows_bind; [apply grows_load || apply grows_new | intros ?]
    | apply grows_ret
    | match goal with
      | |- context [normPaths ?s ?a ?r ?j ?bs ?ps] =>
          destruct (normPaths s a r j bs ps) as [? [?|]]
      end ].
Qed.

Lemma grows_Shout_if format err : grows (Shout_if format err).
Proof. destruct err; [apply grows_Shout | apply (grows_ret (A:=unit))]. Qed.

Lemma grows_Watch_forward paths excludes (ret : ptr) :
  grows (Watch_forward Separator Abs Rel Join filterFiles paths excludes ret).
Proof.
  unfold Watch_forward. case_decide; [|apply (grows_ret (A:=unit))].
  apply grows_bind; [apply grows_Mod_normPaths|intros [ret1 err1]].
  apply grows_bind; [apply grows_Shout_if|intros _].
  apply grows_bind; [apply grows_Filter|intros [ret2 err2]].
  apply grows_bind; [apply grows_Shout_if|intros _].
  apply grows_bind; [apply grows_load|intros m].
  destruct (negb (Empty m)); [|apply (grows_ret (A:=unit))].
  apply grows_bind; [apply grows_load|intros m']. apply grows_send.
Qed.

Lemma grows_Watch_loop paths excludes cycles :
  grows (Watch_loop Separator Abs Rel Join filterFiles paths excludes cycles).
Proof.
  induction cycles as [|c cycles IH]; simpl; [apply (grows_ret (A:=unit))|].
  destruct (batch _ _); [|apply (grows_ret (A:=unit))].
  apply grows_bind; [apply grows_new|intros ret].
  apply grows_bind; [apply grows_Watch_forward|intros _]. apply IH.
Qed.

(** The two methods on a receiver that is there: a new object with the
    three results, or the first error and the nil pointer. *)
Lemma Mod_normPaths_addr l m bases w :
  heap w !! l = Some m →
  (∃ e, Mod_normPaths Separator Abs Rel Join (addr l) bases w
        = Done (nil_ptr, Some e) w) ∨
  (∃ c d a,
     normPaths Separator Abs Rel Join bases (Changed m) = (c, None) ∧
     normPaths Separator Abs Rel Join bases (Deleted m) = (d, None) ∧
     normPaths Separator Abs Rel Join bases (Added m) = (a, None) ∧
     Mod_normPaths Separator Abs Rel Join (addr l) bases w
     = Done (addr (fresh (dom (heap w))), None)
            (mkWorld (<[fresh (dom (heap w)) := mkMod c d a]> (heap w))
                     (shouted w) (ch w))).
Proof.
  intros Hl. unfold Mod_normPaths, mbind, go_bind, load. rewrite Hl. simpl.
  destruct (normPaths _ _ _ _ bases (Changed m)) as [c [e|]];
    simpl; rewrite ?Hl; simpl; [left; by exists e|].
  destruct (normPaths _ _ _ _ bases (Deleted m)) as [d [e|]];
    simpl; rewrite ?Hl; simpl; [left; by exists e|].
  destruct (normPaths _ _ _ _ bases (Added m)) as [a [e|]];
    simpl; rewrite ?Hl; simpl; [left; by exists e|].
  right. by exists c, d, a.
Qed.

Lemma Filter_addr l m excludes w :
  heap w !! l = Some m →
  (∃ e, Filter filterFiles (addr l) excludes w = Done (nil_ptr, Some e) w) ∨
  (∃ c d a,
     filterFiles (Changed m) excludes = (c, None) ∧
     filterFiles (Deleted m) excludes = (d, None) ∧
     filterFiles (Added m) excludes = (a, None) ∧
     Filter filterFiles (addr l) excludes w
     = Done (addr (fresh (dom (heap w))), None)
            (mkWorld (<[fresh (dom (heap w)) := mkMod c d a]> (heap w))
                     (shouted w) (ch w))).
Proof.
  intros Hl. unfold Filter, mbind, go_bind, load. rewrite Hl. simpl.
  destruct (filterFiles (Changed m) excludes) as [c [e|]];
    simpl; rewrite ?Hl; simpl; [left; by exists e|].
  destruct (filterFiles (Deleted m) excludes) as [d [e|]];
    simpl; rewrite ?Hl; simpl; [left; by exists e|].
  destruct (filterFiles (Added m) excludes) as [a [e|]];
    simpl; rewrite ?Hl; simpl; [left; by exists e|].
  right. by exists c, d, a.
Qed.

(** [if !ret.Empty() { ch <- *ret }] on a pointer that is there. *)
Lemma forward_tail_addr l m w :
  heap w !! l = Some m →
  (m' ← load (addr l); if negb (Empty m') then m'' ← load (addr l); send m''
                       else mret ()) w
  = Done () (mkWorld (heap w) (shouted w)
                     (ch w ++ if Empty m then [] else [m])).
Proof.
  intros Hl. unfold mbind, go_bind, load. rewrite Hl. simpl.
  destruct (Empty m); simpl.
  - rewrite app_nil_r. by destruct w.
  - by rewrite Hl.
Qed.

(** One turn on the result of [batch]: it goes through, sending the
    filtered [Mod] when that is not empty and logging nothing; or it logs
    one line and panics. *)
Lemma Watch_forward_addr paths excludes l m w :
  heap w !! l = Some m →
  let r := Watch_forward Separator Abs Rel Join filterFiles paths excludes
                         (addr l) w in
  (∃ c d a c' d' a',
     normPaths Separator Abs Rel Join paths (Changed m) = (c, None) ∧
     normPaths Separator Abs Rel Join paths (Deleted m) = (d, None) ∧
     normPaths Separator Abs Rel Join paths (Added m) = (a, None) ∧
     filterFiles c excludes = (c', None) ∧
     filterFiles d excludes = (d', None) ∧
     filterFiles a excludes = (a', None) ∧
     ∃ w', r = Done () w' ∧ shouted w' = shouted w ∧
           ch w' = ch w ++ (if Empty (mkMod c' d' a') then []
                            else [mkMod c' d' a'])) ∨
  (∃ w' e, r = Panic w' ∧ ch w' = ch w ∧
           (shouted w' = shouted w ++ ["Error normalising paths: " +:+ e] ∨
            shouted w' = shouted w ++ ["Error filtering paths: " +:+ e])).
Proof.
  intros Hl r. subst r.
  destruct (Mod_normPaths_addr l m paths w Hl)
    as [[e Hn]|(c & d & a & Hc & Hd & Ha & Hn)].
  - right. erewrite Watch_forward_normPaths_error by done.
    eexists _, e. split_and!; [done..|]. by left.
  - match type of Hn with
    | _ = Done (addr ?l1, _) ?w1 =>
        assert (heap w1 !! l1 = Some (mkMod c d a)) as Hl1
          by apply lookup_insert_eq;
        destruct (Filter_addr l1 _ excludes w1 Hl1)
          as [[e Hf]|(c' & d' & a' & Hc' & Hd' & Ha' & Hf)]
    end.
    + right. erewrite Watch_forward_Filter_error by done.
      eexists _, e. split_and!; [done..|]. by right.
    + left. exists c, d, a, c', d', a'. split_and!; try done.
      unfold Watch_forward. rewrite decide_True by done.
      unfold mbind at 1. unfold go_bind at 1. rewrite Hn. simpl.
      unfold mbind at 1. unfold go_bind at 1. simpl.
      unfold mbind at 1. unfold go_bind at 1. rewrite Hf. simpl.
      unfold mbind at 1. unfold go_bind at 1. simpl.
      erewrite forward_tail_addr by apply lookup_insert_eq.
      by eexists.
Qed.

End SessionRuns.

(** X15. [Mod.normPaths] modifies no object there is, its receiver
    included, and writes neither to the log nor to the channel. When it
    succeeds the result points to a new object that holds the three
    normalised sequences; when a path fails the result is nil and nothing
    at all has changed. It panics on a nil receiver only. *)
Theorem Mod_normPaths_frame (Separator : Ascii.ascii)
    (Abs : string → string * option error)
    (Rel : string → string → string * option error)
    (Join : list string → string)
    (md : ptr) (bases : list string) (w : world) :
  let r := Mod_normPaths Separator Abs Rel Join md bases w in
  (∀ l m, heap w !! l = Some m → heap (world_of r) !! l = Some m) ∧
  shouted (world_of r) = shouted w ∧
  ch (world_of r) = ch w ∧
  match r with
  | Done (ret, None) w' =>
      ∃ l m, load md w = Done m w ∧ ret = addr l ∧ heap w !! l = None ∧
             heap w' =
               <[l := {| Changed := (normPaths Separator Abs Rel Join bases
                                       (Changed m)).1;
                         Deleted := (normPaths Separator Abs Rel Join bases
                                       (Deleted m)).1;
                         Added := (normPaths Separator Abs Rel Join bases
                                     (Added m)).1 |}]>
                 (heap w)
  | Done (ret, Some _) w' => ret = nil_ptr ∧ w' = w
  | Panic w' => w' = w ∧ load md w = Panic w
  end.
Proof.
  cbv zeta.
  destruct (grows_Mod_normPaths Separator Abs Rel Join md bases w)
    as (Hheap & _ & _).
  destruct (Mod_normPaths_quiet Separator Abs Rel Join md bases w)
    as (Hlog & Hch).
  split_and!; try done.
  destruct md as [|l0]; [done|]. unfold load.
  destruct (heap w !! l0) as [m0|] eqn:Hl0.
  - destruct (Mod_normPaths_addr Separator Abs Rel Join l0 m0 bases w Hl0)
      as [[e ->]|(c & d & a & Hc & Hd & Ha & ->)]; [done|].
    exists (fresh (dom (heap w))), m0. rewrite Hc, Hd, Ha.
    split_and!; try done. apply fresh_loc_None.
  - unfold Mod_normPaths, mbind, go_bind, load. by rewrite Hl0.
Qed.

Lemma Watch_forward_ok (Separator : Ascii.ascii)
    (Abs : string → string * option error)
    (Rel : string → string → string * option error)
    (Join : list string → string)
    (filterFiles : list string → list string → list string * option error)
    (paths excludes : list string) (l : loc) (m : Mod) (w : world)
    (c d a c' d' a' : list string) :
  heap w !! l = Some m →
  normPaths Separator Abs Rel Join paths (Changed m) = (c, None) →
  normPaths Separator Abs Rel Join paths (Deleted m) = (d, None) →
  normPaths Separator Abs Rel Join paths (Added m) = (a, None) →
  filterFiles c excludes = (c', None) →
  filterFiles d excludes = (d', None) →
  filterFiles a excludes = (a', None) →
  ∃ w', Watch_forward Separator Abs Rel Join filterFiles paths excludes
                      (addr l) w = Done () w' ∧
        shouted w' = shouted w ∧
        ch w' = ch w ++ (if Empty (mkMod c' d' a') then []
                         else [mkMod c' d' a']).
Proof.
  intros Hl Hc Hd Ha Hc' Hd' Ha'.
  destruct (Watch_forward_addr Separator Abs Rel Join filterFiles
              paths excludes l m w Hl)
    as [(c0 & d0 & a0 & c1 & d1 & a1 & Ec & Ed & Ea & Ec' & Ed' & Ea' & Hrun)
       |(w' & e & Hrun & _ & _)].
  - assert (c0 = c ∧ d0 = d ∧ a0 = a) as (-> & -> & ->)
      by (split_and!; congruence).
    assert (c1 = c' ∧ d1 = d' ∧ a1 = a') as (-> & -> & ->)
      by (split_and!; congruence).
    done.
  - exfalso. revert Hrun. unfold Watch_forward. rewrite decide_True by done.
    unfold Mod_normPaths, Filter, mbind, go_bind, load. rewrite Hl. simpl.
    rewrite Hc. simpl. rewrite Hl. simpl. rewrite Hd. simpl. rewrite Hl. simpl.
    rewrite Ha. simpl. rewrite lookup_insert_eq. simpl.
    rewrite Hc'. simpl. rewrite lookup_insert_eq. simpl.
    rewrite Hd'. simpl. rewrite lookup_insert_eq. simpl.
    rewrite Ha'. simpl. rewrite lookup_insert_eq. simpl.
    destruct (Empty _); simpl; [done|]. by rewrite lookup_insert_eq.
Qed.

(** X16. When nothing fails, a turn of the goroutine normalises the three
    sequences, filters the normalised ones, and sends the [Mod] so obtained
    if it is not empty; it logs nothing and does not panic. *)
Theorem Watch_forward_pipeline (Separator : Ascii.ascii)
    (Abs : string → string * option error)
    (Rel : string → string → string * option error)
    (Join : list string → string)
    (filterFiles : list string → list string → list string * option error)
    (paths excludes : list string) (l : loc) (m : Mod) (w : world)
    (c d a c' d' a' : list string) :
  heap w !! l = Some m →
  normPaths Separator Abs Rel Join paths (Changed m) = (c, None) →
  normPaths Separator Abs Rel Join paths (Deleted m) = (d, None) →
  normPaths Separator Abs Rel Join paths (Added m) = (a, None) →
  filterFiles c excludes = (c', None) →
  filterFiles d excludes = (d', None) →
  filterFiles a excludes = (a', None) →
  ∃ w', Watch_forward Separator Abs Rel Join filterFiles paths excludes
                      (addr l) w = Done () w' ∧
        shouted w' = shouted w ∧
        ch w' = ch w ++ (if Empty (mkMod c' d' a') then []
                         else [mkMod c' d' a']).
Proof. apply Watch_forward_ok. Qed.

Lemma Watch_forward_pipeline_witness :
  ∃ w', Watch_forward "/" Standin.Abs Standin.Rel Standin.Join
          Standin.filterFiles ["/repo"] [] (addr 1%positive)
          (mkWorld {[1%positive := mkMod ["/repo/a.txt"] [] ["/tmp/x"]]} [] [])
        = Done () w' ∧
        shouted w' = [] ∧
        ch w' = [] ++ (if Empty (mkMod ["/repo/a.txt"] [] ["/tmp/x"]) then []
                       else [mkMod ["/repo/a.txt"] [] ["/tmp/x"]]).
Proof.
  apply (Watch_forward_pipeline "/" Standin.Abs Standin.Rel Standin.Join
           Standin.filterFiles ["/repo"] [] 1%positive
           (mkMod ["/repo/a.txt"] [] ["/tmp/x"])
           (mkWorld {[1%positive := mkMod ["/repo/a.txt"] [] ["/tmp/x"]]} [] [])
           ["/repo/a.txt"] [] ["/tmp/x"]); reflexivity.
Defined.

(** X17. Over any number of turns, and also when it ends in a panic, the
    goroutine leaves every [Mod] object there was as it was, and only adds
    at the end of the log and of the channel. *)
Theorem Watch_loop_keeps (Separator : Ascii.ascii)
    (Abs : string → string * option error)
    (Rel : string → string → string * option error)
    (Join : list string → string)
    (filterFiles : list string → list string → list string * option error)
    (paths excludes : list string) (cycles : list cycle) (w : world) :
  let w' := world_of (Watch_loop Separator Abs Rel Join filterFiles
                                 paths excludes cycles w) in
  (∀ l m, heap w !! l = Some m → heap w' !! l = Some m) ∧
  shouted w `prefix_of` shouted w' ∧
  ch w `prefix_of` ch w'.
Proof. apply grows_Watch_loop. Qed.


(** X19. Turns in which [batch] received nothing leave no trace, provided
    [filterFiles] returns no file and no error when it is given no file: the
    goroutine sends nothing, logs nothing and does not panic. The bases
    are not looked at. *)
Theorem Watch_loop_idle (Separator : Ascii.ascii)
    (Abs : string → string * option error)
    (Rel : string → string → string * option error)
    (Join : list string → string)
    (filterFiles : list string → list string → list string * option error)
    (paths excludes : list string) (cycles : list cycle) (w : world) :
  filterFiles [] excludes = ([], None) →
  Forall (λ c, outcomes c = received []) cycles →
  ∃ w', Watch_loop Separator Abs Rel Join filterFiles paths excludes cycles w
        = Done () w' ∧
        shouted w' = shouted w ∧ ch w' = ch w.
Proof.
  intros Hff Hidle. revert w.
  induction Hidle as [|c cycles Hc _ IH]; intros w; simpl; [by eexists|].
  rewrite Hc. change (batch (stat c) (received [])) with (Some Mod_zero).
  unfold mbind at 1. unfold go_bind at 1. rewrite new_Done.
  unfold mbind at 1. unfold go_bind at 1.
  match goal with
  | |- context [Watch_forward _ _ _ _ _ _ _ (addr ?l0) ?w0] =>
      destruct (Watch_forward_ok Separator Abs Rel Join filterFiles
                  paths excludes l0 Mod_zero w0 [] [] [] [] [] []
                  (lookup_insert_eq _ _ _))
        as (w1 & -> & Hs & Hch); try done
  end.
  destruct (IH w1) as (w' & -> & Hs' & Hch').
  exists w'. split; [done|]. simpl in *.
  rewrite app_nil_r in Hch. by rewrite Hs', Hch', Hs, Hch.
Qed.

Lemma Watch_loop_idle_witness :
  ∃ w', Watch_loop "/" Standin.Abs Standin.Rel Standin.Join
          Standin.filterFiles ["/repo"] ["["]
          [mkCycle (mkStat (λ _, None)) (received []);
           mkCycle (mkStat (λ _, Some "no such file")) (received [])]
          (mkWorld ∅ [] [])
        = Done () w' ∧
        shouted w' = [] ∧ ch w' = [].
Proof.
  apply (Watch_loop_idle "/" Standin.Abs Standin.Rel Standin.Join
           Standin.filterFiles ["/repo"] ["["]).
  - reflexivity.
  - repeat constructor.
Defined.

(** ** The setup of [Watch] *)

Section SetupFacts.

Variable os_Stat_IsDir : string → bool * option error.
Variable path_Join : list string → string.
Variable notify_Watch : list string → string → option error.

Implicit Types (watched paths : list string) (p : string).


End SetupFacts.


(** ** The consumer in [main] *)

(** X21. For a [Mod] it receives, [main] prints one line for each of
    [Added], [Changed] and [Deleted] that is not empty, in this order, and
    so nothing exactly when [Empty] is true; every [Mod] the goroutine of
    [Watch] sends makes it print at least one line. *)
Theorem main_prints_iff_not_Empty :
  (∀ md, main_print md = [] ↔ Empty md = true) ∧
  (∀ md, length (main_print md)
         = length (filter (λ l, l ≠ []) [Added md; Changed md; Deleted md])) ∧
  (∀ Separator Abs Rel Join filterFiles paths excludes cycles w,
     ∃ out,
       ch (world_of (Watch_loop Separator Abs Rel Join filterFiles
                                paths excludes cycles w))
       = ch w ++ out ∧
       Forall (λ md, main_print md ≠ []) out).
Proof.
  assert (∀ md, main_print md = [] ↔ Empty md = true) as Hiff.
  { intros [[|c cs] [|d ds] [|a as_]]; unfold main_print, Empty; simpl;
      repeat case_bool_decide; simpl in *; split; try done; lia. }
  split_and!; [done| |].
  - intros [[|c cs] [|d ds] [|a as_]]; by vm_compute.
  - intros.
    destruct (sends_Watch_loop Separator Abs Rel Join filterFiles
                paths excludes cycles w) as (out & Hout & Hall).
    exists out. split; [done|].
    eapply Forall_impl; [exact Hall|]. simpl. intros md Hne.
    rewrite Hiff. congruence.
Qed.

(** ** How long [batch] takes *)

Section DurationFacts.

Context {T : Type} `{!existenceChecker T}.
Variable exists_ : T.
Variable tie : nat → bool.
Variable batchTime : Z.

Lemma batch_timed_chronological n now st chq :
  let r := batch_timed exists_ tie batchTime n now st chq in
  Forall (λ t, (now ≤ t)%Z) (got r).*1 ∧ StronglySorted Z.le (got r).*1.
Proof.
  revert n now st. induction chq as [|a chq IH]; intros n now st; simpl.
  - split; constructor.
  - destruct (recv_first _ _ _ _); simpl; [|split; constructor].
    destruct (IH (S n) (recv_at now a) (event_case st (sent a)))
      as [Hge Hsorted].
    assert (now ≤ recv_at now a)%Z as Hnow by (unfold recv_at; lia).
    split.
    + constructor; [done|].
      eapply Forall_impl; [exact Hge|]. simpl. lia.
    + by constructor.
Qed.

Lemma last_receipt_ge now (receipts : list (Z * EventInfo)) :
  Forall (λ t, (now ≤ t)%Z) receipts.*1 → (now ≤ last_receipt now receipts)%Z.
Proof.
  unfold last_receipt. intros Hall.
  destruct (last receipts.*1) as [t|] eqn:Hlast; simpl; [|done].
  apply last_Some_elem_of in Hlast.
  by apply (proj1 (Forall_forall _ _) Hall).
Qed.

End DurationFacts.

(** X22. A call of [batch] never returns sooner than [batchTime] after it
    was entered, and receives its events in the order of time, none
    before the call was entered. *)
Theorem batch_takes_batchTime {T : Type} `{!existenceChecker T} (exists_ : T)
    (tie : nat → bool) (batchTime now : Z) (chq : list arrival) :
  let r := batch_timed exists_ tie batchTime 0 now accum_init chq in
  (now + batchTime ≤ returned_at r)%Z ∧
  Forall (λ t, (now ≤ t)%Z) (got r).*1 ∧
  StronglySorted Z.le (got r).*1.
Proof.
  intros r.
  destruct (batch_timed_chronological exists_ tie batchTime 0 now accum_init chq)
    as [Hge Hsorted].
  split_and!; [|done..].
  subst r. rewrite batch_timed_returned_at. unfold timer_at.
  apply last_receipt_ge in Hge. lia.
Qed.

(** ** More on [normPath] and on [Mod.All] *)

(** X23. When [filepath.Abs] fails for a base, returning the empty string
    with its error, [normPath] returns that error for every path that
    starts with a slash and is under none of the bases before: also for a
    path under a later base, and for a path under no base at all. *)
Theorem normPath_Abs_failure (Separator : Ascii.ascii)
    (Abs : string → string * option error)
    (Rel : string → string → string * option error)
    (Join : list string → string)
    (pre post : list string) (base rest : string) (e : error) :
  under_none Separator Abs pre (String "/" rest) →
  Abs base = ("", Some e) →
  normPath Separator Abs Rel Join (pre ++ base :: post) (String "/" rest)
  = ("", Some e).
Proof.
  intros Hpre HAbs. rewrite normPath_skip by done. simpl.
  by rewrite HAbs, isUnder_empty_parent.
Qed.

Lemma normPath_Abs_failure_witness :
  normPath "/"
    (λ base, if bool_decide (base = "web") then ("", Some "getwd: no such file or directory")
             else (base, None))
    Standin.Rel Standin.Join ["/srv"; "web"; "/repo"] "/repo/a.txt"
  = ("", Some "getwd: no such file or directory").
Proof.
  apply (normPath_Abs_failure "/"
           (λ base, if bool_decide (base = "web")
                    then ("", Some "getwd: no such file or directory")
                    else (base, None))
           Standin.Rel Standin.Join ["/srv"] ["/repo"] "web" "repo/a.txt").
  - repeat constructor.
  - reflexivity.
Defined.

(** X24. For the [Mod] [batch] returns, [All] is [Added], [Changed] and
    [Deleted] put together and sorted: it has each of their paths once, so
    as many paths as the three have between them. *)
Theorem batch_All_partition {T : Type} `{!existenceChecker T} (exists_ : T)
    (evs : list EventInfo) :
  ∃ md, batch exists_ (received evs) = Some md ∧
        All md ≡ₚ Added md ++ Changed md ++ Deleted md ∧
        length (All md)
        = length (Added md) + length (Changed md) + length (Deleted md).
Proof.
  eexists. split; [apply batch_received|].
  set (md := timeout_case exists_ (foldl event_case accum_init evs)).
  destruct (timeout_case_disjoint exists_ (foldl event_case accum_init evs))
    as (Hac & Had & Hcd). fold md in Hac, Had, Hcd.
  assert (All md ≡ₚ Added md ++ Changed md ++ Deleted md) as Hperm.
  { apply NoDup_Permutation.
    - unfold All. apply NoDup__keys.
    - rewrite !NoDup_app. split_and!.
      + apply NoDup__keys.
      + intros p Hp. rewrite elem_of_app. intros [?|?]; [by eapply Hac | by eapply Had].
      + apply NoDup__keys.
      + intros p Hp ?. by eapply Hcd.
      + apply NoDup__keys.
    - intros p. rewrite elem_of_All, !elem_of_app. tauto. }
  split; [done|]. rewrite Hperm, !length_app. lia.
Qed.
